(** * Source-plane analysis of auto_lens: a shallow embedding

    The definitions below follow [src/auto_lens/analysis.py] and
    [src/autolens/lens/lens_fit/lens_image_fit.py].

    Numbers.  The Python code computes with IEEE doubles.  The matrix builders,
    the cluster search and the evidence are embedded over the exact rationals
    [Q] (so every definition evaluates on concrete inputs), the border
    relocation, which needs square roots and angles, over the reals [R].
    Python [int] indices are [nat]: negative (wrap-around) indices are not
    modelled.  The source is Python 2 ([xrange]; [map] returns a list).

    Effects.  A Python call either returns, raises, or (for the unbounded
    [while True] of the neighbour walk) keeps running: [outcome] has one
    constructor for each, and loops that may not terminate take a fuel
    argument and answer [Diverges] when it runs out. *)

From stdpp Require Import base option list.
From Stdlib Require Import QArith Reals Lia Psatz.

Set Default Proof Using "Type".


(** * Part I: the embedding *)

(** ** Outcomes of Python calls *)

Inductive exn : Set :=
  | IndexError          (* sequence index out of range *)
  | ValueError          (* min/argmin of an empty sequence *)
  | ZeroDivisionError.  (* float division by zero *)

Inductive outcome (A : Type) : Type :=
  | Returns (a : A)
  | Raises (e : exn)
  | Diverges.

Arguments Returns {A} a.
Arguments Raises {A} e.
Arguments Diverges {A}.

Definition obind {A B} (m : outcome A) (k : A → outcome B) : outcome B :=
  match m with
  | Returns a => k a
  | Raises e => Raises e
  | Diverges => Diverges
  end.

Notation "x ←! m ; k" := (obind m (λ x, k))
  (at level 20, m at level 100, k at level 200, only parsing, right associativity).
Notation "' p ←! m ; k" := (obind m (λ p, k))
  (at level 20, p pattern, m at level 100, k at level 200, only parsing,
   right associativity).

(** [seq[i]]: a read that raises [IndexError] out of range. *)
Definition index {A} (l : list A) (i : nat) : outcome A :=
  match l !! i with
  | Some a => Returns a
  | None => Raises IndexError
  end.

(** [for x in xs: acc = body(acc, x)], stopping at the first exception. *)
Fixpoint for_each {A S} (body : S → A → outcome S) (xs : list A) (s : S)
  : outcome S :=
  match xs with
  | [] => Returns s
  | x :: xs' => s' ←! body s x; for_each body xs' s'
  end.

(** [[f(x) for x in xs]] for a body that may raise. *)
Fixpoint map_each {A B} (f : A → outcome B) (xs : list A) : outcome (list B) :=
  match xs with
  | [] => Returns []
  | x :: xs' => y ←! f x; ys ←! map_each f xs'; Returns (y :: ys)
  end.

(** ** Dense matrices (numpy 2-d arrays of floats) *)

Open Scope Q_scope.

Abbreviation matrix := (list (list Q)).

(** [np.zeros(shape=(rows, cols))] *)
Definition zeros (rows cols : nat) : matrix := replicate rows (replicate cols 0).

(** The entry [M[r, c]], read as [0] outside the matrix (used in statements
    only; the code's own reads and writes go through [add_at]). *)
Definition entry (M : matrix) (r c : nat) : Q :=
  match M !! r with
  | Some row => default 0 (row !! c)
  | None => 0
  end.

(** [M[r, c] += v] (also written [M[r][c] += v] in the source). *)
Definition add_at (M : matrix) (r c : nat) (v : Q) : outcome matrix :=
  row ←! index M r;
  x ←! index row c;
  Returns (<[r := <[c := x + v]> row]> M).

(** [M] has [rows] rows of [cols] entries each. *)
Definition has_shape (rows cols : nat) (M : matrix) : Prop :=
  length M = rows ∧ Forall (λ row, length row = cols) M.

(** Finite sums [f 0 + ... + f (n-1)], used to state column sums, totals and
    quadratic forms. *)
Fixpoint Qsum (n : nat) (f : nat → Q) : Q :=
  match n with
  | O => 0
  | S n' => Qsum n' f + f n'
  end.

Definition ind (b : bool) (v : Q) : Q := if b then v else 0.

Definition column_sum (rows : nat) (M : matrix) (j : nat) : Q :=
  Qsum rows (λ i, entry M i j).

Definition total_sum (rows cols : nat) (M : matrix) : Q :=
  Qsum cols (λ j, column_sum rows M j).

(** ** MappingMatrix.__new__ *)

Definition nat_to_Q (n : nat) : Q := inject_Z (Z.of_nat n).

Definition MappingMatrix (source_pixel_total image_pixel_total sub_grid_size : nat)
    (sub_image_pixel_to_cluster_index sub_image_pixel_to_image_pixel_index : list nat)
  : outcome matrix :=
  let total_sub_pixels := (image_pixel_total * sub_grid_size ^ 2)%nat in
  if (sub_grid_size =? 0)%nat then Raises ZeroDivisionError else
  let sub_grid_fraction := (1 / nat_to_Q sub_grid_size) ^ 2 in
  let obj := zeros source_pixel_total image_pixel_total in
  for_each (λ obj i,
      r ←! index sub_image_pixel_to_cluster_index i;
      c ←! index sub_image_pixel_to_image_pixel_index i;
      add_at obj r c sub_grid_fraction)
    (seq 0 total_sub_pixels) obj.

(** ** Counting sub-pixels *)

(** The number of indices [i < n] that satisfy [p]. *)
Fixpoint count_below (n : nat) (p : nat → bool) : nat :=
  match n with
  | O => O
  | S n' => (count_below n' p + if p n' then 1 else 0)%nat
  end.

(** Is the [i]-th element of [l] equal to [j]? *)
Definition at_index_is (l : list nat) (j i : nat) : bool :=
  match l !! i with
  | Some x => (x =? j)%nat
  | None => false
  end.

(** Sub-pixel [i] is assigned to cluster [r] and belongs to image pixel [c]. *)
Definition assigned (cl im : list nat) (r c i : nat) : bool :=
  at_index_is cl r i && at_index_is im c i.

(** The first [n] sub-pixels have a cluster below [K] and an image pixel
    below [P]. *)
Definition in_range_upto (K P : nat) (cl im : list nat) (n : nat) : Prop :=
  ∀ i, (i < n)%nat →
       ∃ r c, cl !! i = Some r ∧ im !! i = Some c ∧ (r < K)%nat ∧ (c < P)%nat.

(** ** RegularizationMatrix.make_via_pairs *)

(** [M[r, c] -= v] *)
Definition sub_at (M : matrix) (r c : nat) (v : Q) : outcome matrix :=
  add_at M r c (- v).

Definition make_via_pairs (dimension : nat) (regularization_weights : list Q)
    (no_vertices : list nat) (pixel_pairs : list (nat * nat)) : outcome matrix :=
  let matrix := zeros dimension dimension in
  let reg_weight := (λ w, w ^ 2) <$> regularization_weights in
  matrix ←! for_each (λ matrix i,
      n ←! index no_vertices i;
      w ←! index reg_weight i;
      add_at matrix i i (nat_to_Q n * w))
    (seq 0 dimension) matrix;
  for_each (λ matrix pair,
      let p0 := pair.1 in
      let p1 := pair.2 in
      w1 ←! index reg_weight p1; matrix ←! add_at matrix p0 p0 w1;
      w0 ←! index reg_weight p0; matrix ←! add_at matrix p1 p1 w0;
      w0 ←! index reg_weight p0; matrix ←! sub_at matrix p0 p1 w0;
      w0 ←! index reg_weight p0; matrix ←! sub_at matrix p1 p0 w0;
      w1 ←! index reg_weight p1; matrix ←! sub_at matrix p0 p1 w1;
      w1 ←! index reg_weight p1; sub_at matrix p1 p0 w1)
    pixel_pairs matrix.

(** [RegularizationMatrix.__new__] allocates and then returns what
    [make_via_pairs] builds. *)
Definition RegularizationMatrix := make_via_pairs.

(** The squared weight of pixel [i] ([reg_weight[i]]). *)
Definition weight_sq (w : list Q) (i : nat) : Q := default 0 (w !! i) ^ 2.

Definition count_at (n : list nat) (i : nat) : nat := default O (n !! i).

(** What one pair [(a, b)] adds to the entry [(r, c)]: one term for each of
    the six updates of the loop body. *)
Definition pair_update (rw : nat → Q) (a b r c : nat) : Q :=
  ind ((r =? a)%nat && (c =? a)%nat) (rw b)
  + ind ((r =? b)%nat && (c =? b)%nat) (rw a)
  + ind ((r =? a)%nat && (c =? b)%nat) (- rw a)
  + ind ((r =? b)%nat && (c =? a)%nat) (- rw a)
  + ind ((r =? a)%nat && (c =? b)%nat) (- rw b)
  + ind ((r =? b)%nat && (c =? a)%nat) (- rw b).

Fixpoint pairs_update (rw : nat → Q) (pairs : list (nat * nat)) (r c : nat) : Q :=
  match pairs with
  | [] => 0
  | p :: ps => pair_update rw p.1 p.2 r c + pairs_update rw ps r c
  end.

(** The sum of the squared weights of the partners of [i] in the pair list. *)
Fixpoint partner_sum (rw : nat → Q) (pairs : list (nat * nat)) (i : nat) : Q :=
  match pairs with
  | [] => 0
  | p :: ps => ind (p.1 =? i)%nat (rw p.2) + ind (p.2 =? i)%nat (rw p.1)
               + partner_sum rw ps i
  end.

(** The number of listed pairs that contain [i]. *)
Definition pairs_containing (pairs : list (nat * nat)) (i : nat) : nat :=
  length (List.filter (λ p, (p.1 =? i)%nat || (p.2 =? i)%nat) pairs).

(** Pairs [(i, j)] with [i < j < d]. *)
Definition ordered_pairs (d : nat) (pairs : list (nat * nat)) : Prop :=
  Forall (λ p, (p.1 < p.2)%nat ∧ (p.2 < d)%nat) pairs.

Definition vec_at (x : list Q) (i : nat) : Q := default 0 (x !! i).

(** [x^T M x] for a [d x d] matrix. *)
Definition quadratic_form (d : nat) (M : matrix) (x : list Q) : Q :=
  Qsum d (λ i, Qsum d (λ j, vec_at x i * entry M i j * vec_at x j)).

(** The sum over the pairs of [(w_a^2 + w_b^2) * (x_a - x_b)^2]. *)
Fixpoint pairs_energy (rw : nat → Q) (x : nat → Q) (pairs : list (nat * nat)) : Q :=
  match pairs with
  | [] => 0
  | p :: ps => (rw p.1 + rw p.2) * (x p.1 - x p.2) ^ 2 + pairs_energy rw x ps
  end.

(** [sum_i sum_j x_i * F i j * x_j] over [i, j < d]. *)
Definition bilinear_sum (d : nat) (x : nat → Q) (F : nat → nat → Q) : Q :=
  Qsum d (λ i, Qsum d (λ j, x i * F i j * x j)).

(** ** evidence_from_inversion_terms *)

Definition likelihood_with_regularization_from_chi_squared_regularization_term_and_noise_normalization
    (chi_squared regularization_term noise_normalization : Q) : Q :=
  - (1 # 2) * (chi_squared + regularization_term + noise_normalization).

Definition evidence_from_inversion_terms
    (chi_squared regularization_term log_curvature_regularization_term
       log_regularization_term noise_normalization : Q) : Q :=
  - (1 # 2) * (chi_squared
               + regularization_term
               + log_curvature_regularization_term
               - log_regularization_term
               + noise_normalization).

(** ** Cluster assignment *)

Abbreviation coordinate := (Q * Q)%type.

Definition compute_squared_separation (coordinate1 coordinate2 : coordinate) : Q :=
  (coordinate1.1 - coordinate2.1) ^ 2 + (coordinate1.2 - coordinate2.2) ^ 2.

(** The first index of a minimal element, scanning from the left with the
    best index and value so far ([np.argmin], and [min] over indices with a
    key; both keep the first of equal minima). *)
Fixpoint first_min_from (best_i : nat) (best : Q) (i : nat) (l : list Q) : nat :=
  match l with
  | [] => best_i
  | x :: l' =>
      if Qlt_le_dec x best then first_min_from i x (S i) l'
      else first_min_from best_i best (S i) l'
  end.

Definition argmin (l : list Q) : outcome nat :=
  match l with
  | [] => Raises ValueError
  | x :: l' => Returns (first_min_from 0 x 1 l')
  end.

Definition sub_coordinates_to_clusters_via_nearest_neighbour
    (sub_coordinates cluster_centers : list coordinate) : outcome (list nat) :=
  map_each (λ sub_coordinate,
      let distances :=
        (λ centers, compute_squared_separation sub_coordinate centers) <$> cluster_centers in
      argmin distances)
    sub_coordinates.

Definition find_index_of_nearest_sparse_coordinate
    (i : nat) (coordinate_to_sparse_coordinates_index : list nat) : outcome nat :=
  index coordinate_to_sparse_coordinates_index i.

Definition find_index_of_nearest_sparse_cluster
    (nearest_sparse_coordinate_index : nat) (sparse_coordinates_to_cluster_index : list nat)
  : outcome nat :=
  index sparse_coordinates_to_cluster_index nearest_sparse_coordinate_index.

Definition find_separation_of_sub_coordinate_and_nearest_sparse_cluster
    (cluster_centers : list coordinate) (sub_coordinate : coordinate) (cluster_index : nat)
  : outcome Q :=
  nearest_sparse_cluster_center ←! index cluster_centers cluster_index;
  Returns (compute_squared_separation sub_coordinate nearest_sparse_cluster_center).

Definition find_separation_and_index_of_nearest_neighboring_cluster
    (sub_coordinate : coordinate) (cluster_centers : list coordinate)
    (cluster_neighbors : list nat) : outcome (nat * Q) :=
  separation_from_neighbor ←!
    map_each (λ neighbors,
        center ←! index cluster_centers neighbors;
        Returns (compute_squared_separation sub_coordinate center))
      cluster_neighbors;
  closest_separation_index ←! argmin separation_from_neighbor;
  neighbor ←! index cluster_neighbors closest_separation_index;
  separation ←! index separation_from_neighbor closest_separation_index;
  Returns (neighbor, separation).

(** The [while True] loop of [sub_coordinates_to_clusters_via_sparse_pairs]
    for one sub-pixel; [fuel] bounds the number of iterations of the model,
    the source has no bound. *)
Fixpoint neighbor_walk (fuel : nat) (sub_coordinate : coordinate)
    (cluster_centers : list coordinate) (cluster_neighbors : list (list nat))
    (nearest_sparse_cluster_index : nat) : outcome nat :=
  match fuel with
  | O => Diverges
  | S fuel' =>
      separation_of_sub_coordinate_and_sparse_cluster ←!
        find_separation_of_sub_coordinate_and_nearest_sparse_cluster
          cluster_centers sub_coordinate nearest_sparse_cluster_index;
      neighbors ←! index cluster_neighbors nearest_sparse_cluster_index;
      found ←! find_separation_and_index_of_nearest_neighboring_cluster
                 sub_coordinate cluster_centers neighbors;
      let neighboring_cluster_index := found.1 in
      let separation_of_sub_coordinate_and_neighboring_cluster := found.2 in
      if Qlt_le_dec separation_of_sub_coordinate_and_sparse_cluster
                    separation_of_sub_coordinate_and_neighboring_cluster
      then Returns nearest_sparse_cluster_index
      else neighbor_walk fuel' sub_coordinate cluster_centers cluster_neighbors
                         neighboring_cluster_index
  end.

(** [enumerate(l)], counting from [start]. *)
Fixpoint enumerate_from {A} (start : nat) (l : list A) : list (nat * A) :=
  match l with
  | [] => []
  | x :: l' => (start, x) :: enumerate_from (S start) l'
  end.

Definition sub_coordinates_to_clusters_via_sparse_pairs (fuel : nat)
    (sub_coordinates cluster_centers : list coordinate)
    (cluster_neighbors : list (list nat))
    (sub_coordinate_to_sparse_coordinate_index sparse_coordinate_to_cluster_index : list nat)
  : outcome (list nat) :=
  map_each (λ indexed,
      let sub_coordinate_index := indexed.1 in
      let sub_coordinate := indexed.2 in
      nearest_sparse_coordinate_index ←!
        find_index_of_nearest_sparse_coordinate
          sub_coordinate_index sub_coordinate_to_sparse_coordinate_index;
      nearest_sparse_cluster_index ←!
        find_index_of_nearest_sparse_cluster
          nearest_sparse_coordinate_index sparse_coordinate_to_cluster_index;
      neighbor_walk fuel sub_coordinate cluster_centers cluster_neighbors
                    nearest_sparse_cluster_index)
    (enumerate_from 0 sub_coordinates).

(** *** Voronoi.__init__: neighbour lists from the ridge points *)

(** [neighbors[i].append(j)] *)
Definition append_neighbor (neighbors : list (list nat)) (i j : nat)
  : outcome (list (list nat)) :=
  l ←! index neighbors i;
  Returns (<[i := l ++ [j]]> neighbors).

(** The loop of [Voronoi.__init__] over the reversed [ridge_points] that
    scipy returned for the cluster centres. *)
Definition Voronoi_neighbors (cluster_centers : nat) (ridge_points : list (nat * nat))
  : outcome (list (list nat)) :=
  for_each (λ neighbors pair,
      neighbors ←! append_neighbor neighbors pair.1 pair.2;
      append_neighbor neighbors pair.2 pair.1)
    (reverse ridge_points) (replicate cluster_centers []).

Definition Voronoi_neighbors_total (neighbors : list (list nat)) : list nat :=
  length <$> neighbors.

(** What the ridges, taken in order, append to the list of cluster [i]. *)
Fixpoint ridge_contributions (ridges : list (nat * nat)) (i : nat) : list nat :=
  match ridges with
  | [] => []
  | p :: ps =>
      (if (p.1 =? i)%nat then [p.2] else [])
      ++ (if (p.2 =? i)%nat then [p.1] else [])
      ++ ridge_contributions ps i
  end.

(** *** Well-formed adjacency *)

Definition center_at (centers : list coordinate) (i : nat) : coordinate :=
  default (0, 0) (centers !! i).

(** The squared separation of [p] and the centre of cluster [i]. *)
Definition separation_to (centers : list coordinate) (p : coordinate) (i : nat) : Q :=
  compute_squared_separation p (center_at centers i).

Definition neighbors_of (nbrs : list (list nat)) (c : nat) : list nat :=
  default [] (nbrs !! c).

(** The adjacency lists of a Voronoi tessellation of the centres, as far as
    the walk relies on them: one non-empty list of in-range neighbours per
    cluster, no cluster its own neighbour, the relation symmetric, and
    (convex cells) whenever some centre is nearer to a point than cluster
    [c] is, so is one of the neighbours of [c]. *)
Record well_formed_adjacency (centers : list coordinate) (nbrs : list (list nat)) : Prop :=
  { wf_length : length nbrs = length centers;
    wf_in_range : ∀ c n, n ∈ neighbors_of nbrs c → (n < length centers)%nat;
    wf_nonempty : ∀ c, (c < length centers)%nat → neighbors_of nbrs c ≠ [];
    wf_irreflexive : ∀ c, c ∉ neighbors_of nbrs c;
    wf_symmetric : ∀ c n, n ∈ neighbors_of nbrs c → c ∈ neighbors_of nbrs n;
    wf_delaunay : ∀ p c k,
      (c < length centers)%nat → (k < length centers)%nat →
      separation_to centers p k < separation_to centers p c →
      ∃ n, n ∈ neighbors_of nbrs c ∧ separation_to centers p n < separation_to centers p c }.

(** Cells [i] and [j] share a Voronoi ridge: some point is equally far from
    both centres and farther from every other centre. *)
Definition shares_ridge (centers : list coordinate) (i j : nat) : Prop :=
  i ≠ j ∧
  ∃ x : coordinate,
    separation_to centers x i == separation_to centers x j ∧
    ∀ k, (k < length centers)%nat → k ≠ i → k ≠ j →
         separation_to centers x i < separation_to centers x k.

Definition voronoi_neighbors (centers : list coordinate) (nbrs : list (list nat)) : Prop :=
  length nbrs = length centers ∧
  ∀ i j, (i < length centers)%nat → (j < length centers)%nat →
         j ∈ neighbors_of nbrs i ↔ shares_ridge centers i j.

(** Cluster [m] is the one nearest centre of [p]. *)
Definition unique_nearest (centers : list coordinate) (p : coordinate) (m : nat) : Prop :=
  (m < length centers)%nat ∧
  ∀ k, (k < length centers)%nat → k ≠ m →
       separation_to centers p m < separation_to centers p k.

(** Cluster [m] is at minimal squared separation from [p]. *)
Definition nearest (centers : list coordinate) (p : coordinate) (m : nat) : Prop :=
  (m < length centers)%nat ∧
  ∀ k, (k < length centers)%nat →
       separation_to centers p m <= separation_to centers p k.

Definition closer_than (centers : list coordinate) (p : coordinate) (c k : nat) : bool :=
  if Qlt_le_dec (separation_to centers p k) (separation_to centers p c) then true else false.

(** The number of centres strictly nearer to [p] than cluster [c]. *)
Definition rank (centers : list coordinate) (p : coordinate) (c : nat) : nat :=
  count_below (length centers) (closer_than centers p c).

(** The index the exhaustive scan returns for [p] (0 when there is no
    centre and the scan raises). *)
Definition nearest_index (centers : list coordinate) (p : coordinate) : nat :=
  match argmin (compute_squared_separation p <$> centers) with
  | Returns m => m
  | _ => O
  end.

(** *** Example: four centres, and a sub-pixel half-way between two of them *)

Definition tie_centers : list coordinate := [(0, 0); (2, 0); (1, 3); (1, -3)].

(** The Voronoi cells of the two centres on the axis touch all the others;
    the cells of the centres above and below are separated by them. *)
Definition tie_neighbors : list (list nat) := [[1; 2; 3]; [0; 2; 3]; [0; 1]; [0; 1]]%nat.

(** Ridge points that give these lists. *)
Definition tie_ridge_points : list (nat * nat) :=
  [(1, 3); (0, 3); (1, 2); (0, 2); (0, 1)]%nat.

Definition tie_sub_coordinate : coordinate := (1, 0).

(** Sub-pixels of the example with a unique nearest centre (clusters 1, 2
    and 3). *)
Definition example_sub_coordinates : list coordinate :=
  [(3, 1); (1, 2); (1 # 2, - (5 # 2))].

Definition example_sub_coordinate : coordinate := (3, 1).

(** ** Reconstructor.covariance_matrix_from_blurred_mapping *)

(** The read [M[r, c]]. *)
Definition read_at (M : matrix) (r c : nat) : outcome Q :=
  row ←! index M r;
  index row c.

(** [src/profiling/reconstruction/rectangular/covariance_matrix/original.py]:
    the covariance matrix computed directly, for a reconstructor whose
    mapping has shape [mapping_shape].  (For a zero noise value numpy
    divides to [inf] or [nan]; [Q] has neither, so the properties below
    assume non-zero noise.) *)
Definition covariance_matrix_from_blurred_mapping (mapping_shape : nat * nat)
    (blurred_mapping : matrix) (noise_vector : list Q) : outcome matrix :=
  let covariance_matrix := zeros mapping_shape.2 mapping_shape.2 in
  for_each (λ covariance_matrix i,
      for_each (λ covariance_matrix jx,
          for_each (λ covariance_matrix jy,
              a ←! read_at blurred_mapping i jx;
              b ←! read_at blurred_mapping i jy;
              n ←! index noise_vector i;
              add_at covariance_matrix jx jy (a * b / n ^ 2))
            (seq 0 mapping_shape.2) covariance_matrix)
        (seq 0 mapping_shape.2) covariance_matrix)
    (seq 0 mapping_shape.1) covariance_matrix.

(** ** noise_map_1d_from_lens_data_tracer_and_hyper_backkground_noise *)

(** [a + b] on one-dimensional numpy arrays: elementwise for equal lengths,
    an array of length one is broadcast, other lengths do not match. *)
Definition np_add (a b : list Q) : outcome (list Q) :=
  if (length a =? length b)%nat then Returns (zip_with Qplus a b)
  else match a, b with
       | [x], _ => Returns ((λ y, x + y) <$> b)
       | _, [y] => Returns ((λ x, x + y) <$> a)
       | _, _ => Raises ValueError
       end.

(** [a[a > limit] = limit] *)
Definition clip_above (limit : Q) (a : list Q) : list Q :=
  (λ v, if Qlt_le_dec limit v then limit else v) <$> a.

(** The collaborators enter by what the function uses of them: the noise map
    and the optional maximum of [lens_data], the tracer's (optional) hyper
    noise map as a function of a noise map, and the optional scaling of the
    noise map by [hyper_background_noise]. *)
Definition noise_map_1d_from_lens_data_tracer_and_hyper_backkground_noise
    (lens_data_noise_map_1d : list Q) (lens_data_hyper_noise_map_max : option Q)
    (tracer_hyper_noise_map_1d_from_noise_map_1d : list Q → option (list Q))
    (hyper_background_noise : option (list Q → list Q)) : outcome (list Q) :=
  let noise_map_1d :=
    match hyper_background_noise with
    | Some noise_map_scaled_noise_from_noise_map =>
        noise_map_scaled_noise_from_noise_map lens_data_noise_map_1d
    | None => lens_data_noise_map_1d
    end in
  let hyper_noise_map_1d :=
    tracer_hyper_noise_map_1d_from_noise_map_1d lens_data_noise_map_1d in
  match hyper_noise_map_1d with
  | Some hyper_noise_map_1d =>
      noise_map_1d ←! np_add noise_map_1d hyper_noise_map_1d;
      match lens_data_hyper_noise_map_max with
      | Some hyper_noise_map_max => Returns (clip_above hyper_noise_map_max noise_map_1d)
      | None => Returns noise_map_1d
      end
  | None => Returns noise_map_1d
  end.

(** ** Source planes and their borders (over the reals) *)

Close Scope Q_scope.
Open Scope R_scope.

Abbreviation point := (R * R)%type.

(** A [SourcePlane]: the centre of its geometry and the traced
    sub-coordinates it stores. *)
Record SourcePlane : Type :=
  { centre : point;
    coordinates : list point }.

(** A [SourcePlaneBorder]: centre, border coordinates and the coefficients
    [np.polyfit] returned, highest power first. *)
Record SourcePlaneBorder : Type :=
  { border_centre : point;
    border_coordinates : list point;
    polynomial : list R }.

(** Modelled from the spec: [coordinates_to_centre] of the base class
    [profile.Profile], which is not among the sources; the geometry
    utilities of the spec work on the differences [dx], [dy] to the centre. *)
Definition coordinates_to_centre (centre coordinates : point) : point :=
  (coordinates.1 - centre.1, coordinates.2 - centre.2).

(** Modelled from the spec: [coordinates_to_radius] of the base class
    [profile.Profile], which is not among the sources; the spec gives
    [radius(center, point) = sqrt(dx^2 + dy^2)]. *)
Definition coordinates_to_radius (centre coordinates : point) : R :=
  let shifted_coordinates := coordinates_to_centre centre coordinates in
  sqrt (shifted_coordinates.1 ^ 2 + shifted_coordinates.2 ^ 2).

(** [np.arctan2(y, x)], in radians in [(-pi, pi]]. *)
Definition arctan2 (y x : R) : R :=
  if Rlt_dec 0 x then atan (y / x)
  else if Rlt_dec x 0 then
    if Rle_dec 0 y then atan (y / x) + PI else atan (y / x) - PI
  else if Rlt_dec 0 y then PI / 2
  else if Rlt_dec y 0 then - (PI / 2)
  else 0.

(** [math.degrees] *)
Definition degrees (radians : R) : R := radians * 180 / PI.

Definition coordinates_angle_from_x (centre coordinates : point) : R :=
  let shifted_coordinates := coordinates_to_centre centre coordinates in
  let theta_from_x := degrees (arctan2 shifted_coordinates.2 shifted_coordinates.1) in
  if Rlt_dec theta_from_x 0 then theta_from_x + 360 else theta_from_x.

(** [np.polyval(p, x)]: Horner evaluation, highest power first. *)
Definition polyval (p : list R) (x : R) : R :=
  fold_left (λ acc c, acc * x + c) p 0.

Definition border_radius_at_theta (border : SourcePlaneBorder) (theta : R) : R :=
  polyval (polynomial border) theta.

(** [move_factor]: how far a coordinate outside the border is to be moved
    to lie on it, 1 for a coordinate within the border.  (A zero radius
    exceeds the border radius only when the latter is negative; the quotient
    is then left as [border_radius / 0].) *)
Definition move_factor (border : SourcePlaneBorder) (coordinate : point) : R :=
  let theta := coordinates_angle_from_x (border_centre border) coordinate in
  let radius := coordinates_to_radius (border_centre border) coordinate in
  let border_radius := border_radius_at_theta border theta in
  if Rgt_dec radius border_radius then border_radius / radius else 1.

(** [relocated_coordinate]: both components of the coordinate itself are
    multiplied by the move factor. *)
Definition relocated_coordinate (border : SourcePlaneBorder) (coordinate : point) : point :=
  let move_factor := move_factor border coordinate in
  (coordinate.1 * move_factor, coordinate.2 * move_factor).

(** [SourcePlane.relocate_coordinates_outside_border]: the method assigns
    to [self.coordinates] and returns [None]; the pair is the returned value
    and the source plane after the call. *)
Definition relocate_coordinates_outside_border
    (self : SourcePlane) (border : SourcePlaneBorder) : unit * SourcePlane :=
  (tt, {| centre := centre self;
          coordinates := (λ r, relocated_coordinate border r) <$> coordinates self |}).

(** The angles and radii the constructor of [SourcePlaneBorder] hands to
    [np.polyfit]. *)
Definition thetas (border : SourcePlaneBorder) : list R :=
  coordinates_angle_from_x (border_centre border) <$> border_coordinates border.

Definition radii (border : SourcePlaneBorder) : list R :=
  coordinates_to_radius (border_centre border) <$> border_coordinates border.

(** The sum of the squared residuals of the polynomial [p] on the points
    [(x_i, y_i)]. *)
Definition squared_residuals (p xs ys : list R) : R :=
  foldr Rplus 0 (zip_with (λ x y, (polyval p x - y) ^ 2) xs ys).

(** The border is fitted with the given degree: its polynomial has
    [degree + 1] coefficients and no polynomial of that degree has a smaller
    sum of squared residuals on the border points ([np.polyfit]). *)
Definition fitted (border : SourcePlaneBorder) (polynomial_degree : nat) : Prop :=
  length (polynomial border) = S polynomial_degree ∧
  ∀ q, length q = S polynomial_degree →
       squared_residuals (polynomial border) (thetas border) (radii border)
       <= squared_residuals q (thetas border) (radii border).

(** The coordinate is within the border: its radius does not exceed the
    border radius at its angle. *)
Definition within_border (border : SourcePlaneBorder) (coordinate : point) : Prop :=
  coordinates_to_radius (border_centre border) coordinate
  <= border_radius_at_theta border
       (coordinates_angle_from_x (border_centre border) coordinate).

(** *** Example borders and source planes *)

(** A border fitted to four points at distance 1 from the centre [(10, 0)]. *)
Definition offset_border : SourcePlaneBorder :=
  {| border_centre := (10, 0);
     border_coordinates := [(11, 0); (10, 1); (9, 0); (10, -1)];
     polynomial := [0; 1] |}.

(** The same border about the origin. *)
Definition unit_border : SourcePlaneBorder :=
  {| border_centre := (0, 0);
     border_coordinates := [(1, 0); (0, 1); (-1, 0); (0, -1)];
     polynomial := [0; 1] |}.

Definition example_source_plane : SourcePlane :=
  {| centre := (0, 0); coordinates := [(2, 0); (0, 1 / 2)] |}.

(** A source plane whose coordinates are all within the unit border. *)
Definition inner_source_plane : SourcePlane :=
  {| centre := (0, 0); coordinates := [(0, 1 / 2)] |}.

(** *** Borders from a mask *)

(** [itertools.compress(data, selectors)] *)
Fixpoint compress {A} (data : list A) (selectors : list bool) : list A :=
  match data, selectors with
  | d :: data', s :: selectors' =>
      if s then d :: compress data' selectors' else compress data' selectors'
  | _, _ => []
  end.

(** [SourcePlaneBorder.__init__]; [np.polyfit] is a parameter, it may raise. *)
Definition SourcePlaneBorder_init (polyfit : list R → list R → nat → outcome (list R))
    (coordinates : list point) (polynomial_degree : nat) (centre : point)
  : outcome SourcePlaneBorder :=
  let thetas := (λ r, coordinates_angle_from_x centre r) <$> coordinates in
  let radii := (λ r, coordinates_to_radius centre r) <$> coordinates in
  polynomial ←! polyfit thetas radii polynomial_degree;
  Returns {| border_centre := centre;
             border_coordinates := coordinates;
             polynomial := polynomial |}.

Definition border_with_mask_and_polynomial_degree
    (polyfit : list R → list R → nat → outcome (list R))
    (self : SourcePlane) (border_mask : list bool) (polynomial_degree : nat)
  : outcome SourcePlaneBorder :=
  SourcePlaneBorder_init polyfit (compress (coordinates self) border_mask)
    polynomial_degree (centre self).


(** * Part II: properties *)

Close Scope R_scope.
Open Scope Q_scope.

(** ** Sums *)

Lemma Qsum_ext n f g :
  (∀ i, (i < n)%nat → f i == g i) → Qsum n f == Qsum n g.
Proof.
  induction n as [|n IH]; intros H; simpl; [reflexivity|].
  rewrite IH, (H n) by (intros; try apply H; lia). reflexivity.
Qed.

Lemma Qsum_zero n f : (∀ i, (i < n)%nat → f i == 0) → Qsum n f == 0.
Proof.
  induction n as [|n IH]; intros H; simpl; [reflexivity|].
  rewrite IH, (H n) by (intros; try apply H; lia). ring.
Qed.

Lemma Qsum_plus n f g : Qsum n (λ i, f i + g i) == Qsum n f + Qsum n g.
Proof. induction n as [|n IH]; simpl; [ring|]. rewrite IH. ring. Qed.

(** A sum that selects a single index. *)
Lemma Qsum_ind n a f :
  Qsum n (λ i, ind (i =? a)%nat (f i)) == ind (a <? n)%nat (f a).
Proof.
  induction n as [|n IH]; simpl; [reflexivity|].
  rewrite IH. unfold ind.
  destruct (Nat.eqb_spec n a) as [->|Hne].
  - rewrite (proj2 (Nat.ltb_ge a a)) by lia.
    rewrite (proj2 (Nat.ltb_lt a (S a))) by lia. ring.
  - destruct (Nat.ltb_spec a n), (Nat.ltb_spec a (S n)); try lia; ring.
Qed.

Lemma Qsum_swap n m (f : nat → nat → Q) :
  Qsum n (λ i, Qsum m (λ j, f i j)) == Qsum m (λ j, Qsum n (λ i, f i j)).
Proof.
  induction n as [|n IH]; simpl.
  - symmetry. apply Qsum_zero. reflexivity.
  - rewrite IH. symmetry. apply Qsum_plus.
Qed.

(** ** Matrices *)

Lemma index_Returns {A} (l : list A) i a : l !! i = Some a → index l i = Returns a.
Proof. unfold index. intros ->. reflexivity. Qed.

Lemma for_each_app {A S} (body : S → A → outcome S) xs ys s :
  for_each body (xs ++ ys) s = (s' ←! for_each body xs s; for_each body ys s').
Proof.
  revert s. induction xs as [|x xs IH]; intros s; simpl; [done|].
  destruct (body s x); simpl; auto.
Qed.

Lemma zeros_shape rows cols : has_shape rows cols (zeros rows cols).
Proof.
  split; [apply length_replicate|].
  apply Forall_forall. intros row Hin.
  apply elem_of_replicate in Hin as [-> _]. apply length_replicate.
Qed.

Lemma entry_zeros rows cols r c : entry (zeros rows cols) r c = 0.
Proof.
  unfold entry, zeros.
  destruct (replicate rows _ !! r) as [row|] eqn:E; [|reflexivity].
  apply lookup_replicate in E as [-> _].
  destruct (replicate cols _ !! c) as [x|] eqn:E'; [|reflexivity].
  apply lookup_replicate in E' as [-> _]. reflexivity.
Qed.

Lemma has_shape_row rows cols M r :
  has_shape rows cols M → (r < rows)%nat → ∃ row, M !! r = Some row ∧ length row = cols.
Proof.
  intros [Hlen Hrows] Hr.
  destruct (lookup_lt_is_Some_2 M r) as [row Hrow]; [lia|].
  exists row. split; [done|].
  rewrite Forall_forall in Hrows. apply Hrows.
  by eapply list_elem_of_lookup_2.
Qed.

(** [M[r, c] += v] inside the matrix returns, keeps the shape, adds [v] to the
    entry [(r, c)] and leaves every other entry as it was. *)
Lemma add_at_spec rows cols M r c v :
  has_shape rows cols M → (r < rows)%nat → (c < cols)%nat →
  ∃ M', add_at M r c v = Returns M' ∧ has_shape rows cols M' ∧
        ∀ i j, entry M' i j == entry M i j + ind ((i =? r)%nat && (j =? c)%nat) v.
Proof.
  intros Hs Hr Hc.
  destruct (has_shape_row _ _ _ _ Hs Hr) as (row & Hrow & Hlen).
  destruct (lookup_lt_is_Some_2 row c) as [x Hx]; [lia|].
  exists (<[r := <[c := x + v]> row]> M). split; [|split].
  - unfold add_at. rewrite (index_Returns _ _ _ Hrow). simpl.
    rewrite (index_Returns _ _ _ Hx). reflexivity.
  - destruct Hs as [HM Hall]. split; [by rewrite length_insert|].
    apply Forall_insert; [done|]. by rewrite length_insert.
  - intros i j. unfold entry.
    destruct (Nat.eqb_spec i r) as [->|Hir]; simpl.
    + rewrite list_lookup_insert_eq by (destruct Hs; lia). rewrite Hrow.
      destruct (Nat.eqb_spec j c) as [->|Hjc]; simpl.
      * rewrite list_lookup_insert_eq by lia. rewrite Hx. simpl. reflexivity.
      * rewrite list_lookup_insert_ne by done. ring.
    + rewrite list_lookup_insert_ne by done. ring.
Qed.

(** [add_at] outside the matrix raises [IndexError]. *)
Lemma add_at_out_of_range rows cols M r c v :
  has_shape rows cols M → (rows ≤ r)%nat ∨ (cols ≤ c)%nat →
  add_at M r c v = Raises IndexError.
Proof.
  intros Hs Hout. unfold add_at, index.
  destruct (M !! r) as [row|] eqn:Hrow; [simpl|done].
  destruct (row !! c) as [x|] eqn:Hx; [|done].
  exfalso. pose proof (lookup_lt_Some _ _ _ Hrow) as Hr.
  destruct (has_shape_row rows cols M r Hs) as (row' & Hrow' & Hlen); [destruct Hs; lia|].
  pose proof (lookup_lt_Some _ _ _ Hx). destruct Hs. simplify_eq. lia.
Qed.

(** ** Counting *)

Lemma nat_to_Q_S n : nat_to_Q (S n) == nat_to_Q n + 1.
Proof. unfold nat_to_Q. rewrite Nat2Z.inj_succ, <- Z.add_1_r, inject_Z_plus. reflexivity. Qed.

Lemma nat_to_Q_plus n m : nat_to_Q (n + m) == nat_to_Q n + nat_to_Q m.
Proof. unfold nat_to_Q. rewrite Nat2Z.inj_add, inject_Z_plus. reflexivity. Qed.

Lemma nat_to_Q_mult n m : nat_to_Q (n * m) == nat_to_Q n * nat_to_Q m.
Proof. unfold nat_to_Q. rewrite Nat2Z.inj_mul, inject_Z_mult. reflexivity. Qed.

Lemma nat_to_Q_pos n : (0 < n)%nat → 0 < nat_to_Q n.
Proof.
  intros Hn. unfold nat_to_Q. change 0 with (inject_Z 0).
  rewrite <- Zlt_Qlt. lia.
Qed.

Lemma Qsum_count n p v : Qsum n (λ i, ind (p i) v) == nat_to_Q (count_below n p) * v.
Proof.
  induction n as [|n IH]; simpl; [unfold nat_to_Q; simpl; ring|].
  rewrite IH, nat_to_Q_plus. unfold ind.
  destruct (p n); unfold nat_to_Q; simpl; ring.
Qed.

Lemma Qsum_const n v : Qsum n (λ _, v) == nat_to_Q n * v.
Proof.
  induction n as [|n IH]; simpl; [unfold nat_to_Q; simpl; ring|].
  rewrite IH, nat_to_Q_S. ring.
Qed.

Lemma count_below_ext n p q :
  (∀ i, (i < n)%nat → p i = q i) → count_below n p = count_below n q.
Proof.
  induction n as [|n IH]; intros H; simpl; [done|].
  rewrite IH, (H n) by (intros; try apply H; lia). done.
Qed.

(** Counting the positions of [l] that hold [j] is counting the occurrences
    of [j] in [l]. *)
Lemma count_below_occ (l : list nat) j :
  count_below (length l) (at_index_is l j) = count_occ Nat.eq_dec l j.
Proof.
  induction l as [|x l IH] using rev_ind; [done|].
  rewrite length_app, Nat.add_1_r, count_occ_app. simpl.
  rewrite <- IH. f_equal.
  - apply count_below_ext. intros i Hi. unfold at_index_is.
    by rewrite lookup_app_l.
  - unfold at_index_is. rewrite lookup_app_r, Nat.sub_diag by lia. simpl.
    destruct (Nat.eq_dec x j), (Nat.eqb_spec x j); congruence.
Qed.

(** If each of the values [0 .. P-1] occurs [c] times in a list of [P * c]
    elements, the list holds no other value. *)
Lemma filter_lt_S (l : list nat) P :
  length (List.filter (λ x, x <? S P)%nat l)
  = (length (List.filter (λ x, x <? P)%nat l) + count_occ Nat.eq_dec l P)%nat.
Proof.
  induction l as [|x l IH]; simpl; [done|].
  destruct (Nat.eq_dec x P) as [->|Hne].
  - rewrite (proj2 (Nat.ltb_lt P (S P))), (proj2 (Nat.ltb_ge P P)) by lia.
    simpl. rewrite IH. lia.
  - destruct (Nat.ltb_spec x (S P)), (Nat.ltb_spec x P); simpl; rewrite ?IH; lia.
Qed.

Lemma filter_lt_count (l : list nat) P c :
  (∀ j, (j < P)%nat → count_occ Nat.eq_dec l j = c) →
  length (List.filter (λ x, x <? P)%nat l) = (P * c)%nat.
Proof.
  induction P as [|P IH]; intros H.
  - clear H. simpl. induction l; simpl; auto.
  - rewrite filter_lt_S, IH, H by (intros; try apply H; lia). lia.
Qed.

Lemma filter_full {A} (f : A → bool) (l : list A) :
  length (List.filter f l) = length l → Forall (λ x, f x = true) l.
Proof.
  induction l as [|x l IH]; simpl; intros H; [constructor|].
  pose proof (List.filter_length_le f l).
  destruct (f x) eqn:E; simpl in H; [|lia].
  constructor; [done|]. apply IH. lia.
Qed.

Lemma occurrences_in_range (l : list nat) P c :
  length l = (P * c)%nat →
  (∀ j, (j < P)%nat → count_occ Nat.eq_dec l j = c) →
  Forall (λ x, (x < P)%nat) l.
Proof.
  intros Hlen Hocc. pose proof (filter_lt_count l P c Hocc) as Hf.
  rewrite <- Hlen in Hf. apply filter_full in Hf.
  eapply Forall_impl; [exact Hf|]. intros x Hx. by apply Nat.ltb_lt.
Qed.

(** ** The mapping matrix *)

Section mapping_matrix.
Variables (K P : nat) (cl im : list nat) (frac : Q).

Let body := λ (obj : matrix) (i : nat),
  r ←! index cl i; c ←! index im i; add_at obj r c frac.

(** After [n] iterations every entry has gained [frac] once for each
    sub-pixel [i < n] assigned to it. *)
Lemma mapping_loop n M0 :
  has_shape K P M0 → in_range_upto K P cl im n →
  ∃ M, for_each body (seq 0 n) M0 = Returns M ∧ has_shape K P M ∧
       ∀ r c, entry M r c == entry M0 r c + Qsum n (λ i, ind (assigned cl im r c i) frac).
Proof.
  intros Hs. induction n as [|n IH]; intros Hr.
  - exists M0. repeat split; try apply Hs. intros r c. simpl. ring.
  - destruct IH as (M & Hrun & HsM & HM); [intros i Hi; apply Hr; lia|].
    destruct (Hr n) as (r & c & Hcl & Him & Hrk & Hcp); [lia|].
    destruct (add_at_spec K P M r c frac HsM Hrk Hcp) as (M' & Hadd & HsM' & HM').
    exists M'. split; [|split; [done|]].
    + rewrite seq_S, for_each_app, Hrun. simpl. unfold body.
      rewrite (index_Returns _ _ _ Hcl), (index_Returns _ _ _ Him). simpl.
      rewrite Hadd. reflexivity.
    + intros r' c'. rewrite HM', HM. simpl.
      assert (assigned cl im r' c' n = (r' =? r)%nat && (c' =? c)%nat) as ->.
      { unfold assigned, at_index_is. rewrite Hcl, Him.
        by rewrite (Nat.eqb_sym r r'), (Nat.eqb_sym c c'). }
      ring.
Qed.

(** Summing an entry's sub-pixels over the clusters leaves the sub-pixels of
    the column. *)
Lemma assigned_rows n j :
  in_range_upto K P cl im n →
  Qsum K (λ r, Qsum n (λ i, ind (assigned cl im r j i) frac))
  == Qsum n (λ i, ind (at_index_is im j i) frac).
Proof.
  intros Hr. rewrite Qsum_swap. apply Qsum_ext. intros i Hi.
  destruct (Hr i Hi) as (r & c & Hcl & Him & Hrk & Hcp).
  transitivity (Qsum K (λ r', ind (r' =? r)%nat (ind (at_index_is im j i) frac))).
  - apply Qsum_ext. intros r' _. unfold assigned, at_index_is. rewrite Hcl, Him.
    rewrite (Nat.eqb_sym r r'). destruct (r' =? r)%nat; reflexivity.
  - rewrite Qsum_ind. rewrite (proj2 (Nat.ltb_lt r K)) by done. reflexivity.
Qed.

Lemma assigned_columns n :
  in_range_upto K P cl im n →
  Qsum P (λ j, Qsum n (λ i, ind (at_index_is im j i) frac)) == nat_to_Q n * frac.
Proof.
  intros Hr. rewrite Qsum_swap, <- Qsum_const. apply Qsum_ext. intros i Hi.
  destruct (Hr i Hi) as (r & c & Hcl & Him & Hrk & Hcp).
  transitivity (Qsum P (λ j, ind (j =? c)%nat frac)).
  - apply Qsum_ext. intros j _. unfold at_index_is. rewrite Him.
    rewrite (Nat.eqb_sym c j). reflexivity.
  - rewrite Qsum_ind. rewrite (proj2 (Nat.ltb_lt c P)) by done. reflexivity.
Qed.
End mapping_matrix.

Lemma sub_grid_fraction_eq s :
  (1 ≤ s)%nat → (1 / nat_to_Q s) ^ 2 == 1 / nat_to_Q (s ^ 2).
Proof.
  intros Hs. pose proof (nat_to_Q_pos s Hs).
  simpl Nat.pow. rewrite Nat.mul_1_r, nat_to_Q_mult. field. lra.
Qed.

Lemma in_range_upto_intro K P cl im n :
  (n ≤ length cl)%nat → (n ≤ length im)%nat →
  Forall (λ r, (r < K)%nat) cl → Forall (λ c, (c < P)%nat) im →
  in_range_upto K P cl im n.
Proof.
  intros Hcl Him HK HP i Hi.
  destruct (lookup_lt_is_Some_2 cl i) as [r Hr]; [lia|].
  destruct (lookup_lt_is_Some_2 im i) as [c Hc]; [lia|].
  exists r, c. repeat split; try done.
  - rewrite Forall_forall in HK. apply HK. by eapply list_elem_of_lookup_2.
  - rewrite Forall_forall in HP. apply HP. by eapply list_elem_of_lookup_2.
Qed.

(** What [MappingMatrix] returns on in-range assignments: a matrix of shape
    [K x P] whose entry [(r, c)] is the number of sub-pixels of pixel [c]
    assigned to cluster [r], times the sub-grid fraction. *)
Lemma MappingMatrix_entries K P s cl im :
  (1 ≤ s)%nat → in_range_upto K P cl im (P * s ^ 2) →
  ∃ M, MappingMatrix K P s cl im = Returns M ∧ has_shape K P M ∧
       ∀ r c, entry M r c
              == Qsum (P * s ^ 2) (λ i, ind (assigned cl im r c i) (1 / nat_to_Q (s ^ 2))).
Proof.
  intros Hs Hr. unfold MappingMatrix.
  destruct (Nat.eqb_spec s 0) as [?|_]; [lia|].
  destruct (mapping_loop K P cl im ((1 / nat_to_Q s) ^ 2) (P * s ^ 2) (zeros K P))
    as (M & Hrun & HsM & HM); [apply zeros_shape|done|].
  exists M. split; [exact Hrun|split; [done|]].
  intros r c. rewrite HM, entry_zeros. rewrite Qplus_0_l.
  apply Qsum_ext. intros i _. unfold ind. destruct (assigned cl im r c i); [|reflexivity].
  by apply sub_grid_fraction_eq.
Qed.

(** C3.  With [s >= 1], assignment arrays of length [P * s^2], cluster
    indices below [K] and every image pixel [j < P] occurring exactly [s^2]
    times as a parent pixel, [MappingMatrix] returns a [K x P] matrix in which
    the entry [(r, j)] is [1/s^2] times the number of sub-pixels of pixel [j]
    assigned to cluster [r], and every column [j < P] sums to 1. *)
Theorem MappingMatrix_columns_sum_to_one K P s (cl im : list nat) :
  (1 ≤ K)%nat → (1 ≤ P)%nat → (1 ≤ s)%nat →
  length cl = (P * s ^ 2)%nat → length im = (P * s ^ 2)%nat →
  Forall (λ r, (r < K)%nat) cl →
  (∀ j, (j < P)%nat → count_occ Nat.eq_dec im j = (s ^ 2)%nat) →
  ∃ M, MappingMatrix K P s cl im = Returns M ∧ has_shape K P M ∧
       (∀ r j, (r < K)%nat → (j < P)%nat →
          entry M r j
          == nat_to_Q (count_below (P * s ^ 2) (assigned cl im r j)) * (1 / nat_to_Q (s ^ 2))) ∧
       (∀ j, (j < P)%nat → column_sum K M j == 1).
Proof.
  intros _ _ Hs Hcl Him HK Hocc.
  assert (in_range_upto K P cl im (P * s ^ 2)) as Hr.
  { apply in_range_upto_intro; try lia; try done.
    by apply (occurrences_in_range im P (s ^ 2)). }
  destruct (MappingMatrix_entries K P s cl im Hs Hr) as (M & Hrun & HsM & HM).
  exists M. split; [exact Hrun|split; [exact HsM|split]].
  - intros r j _ _. rewrite HM. apply Qsum_count.
  - intros j Hj. unfold column_sum.
    rewrite (Qsum_ext K _ _ (λ r _, HM r j)).
    rewrite assigned_rows by done. rewrite Qsum_count.
    rewrite <- Him, count_below_occ, (Hocc j Hj).
    assert (0 < nat_to_Q (s ^ 2)).
    { apply nat_to_Q_pos. simpl. nia. }
    field. lra.
Qed.

Lemma MappingMatrix_columns_sum_to_one_witness :
  ∃ M, MappingMatrix 2 1 2 [0; 1; 1; 0]%nat [0; 0; 0; 0]%nat = Returns M ∧ has_shape 2 1 M ∧
       (∀ r j, (r < 2)%nat → (j < 1)%nat →
          entry M r j
          == nat_to_Q (count_below (1 * 2 ^ 2) (assigned [0; 1; 1; 0]%nat [0; 0; 0; 0]%nat r j))
             * (1 / nat_to_Q (2 ^ 2))) ∧
       (∀ j, (j < 1)%nat → column_sum 2 M j == 1).
Proof.
  apply (MappingMatrix_columns_sum_to_one 2 1 2 [0; 1; 1; 0]%nat [0; 0; 0; 0]%nat);
    [lia | lia | lia | reflexivity | reflexivity | repeat constructor |].
  intros [|j] Hj; [reflexivity | lia].
Defined.

(** C10.  With [s >= 1], assignment arrays of length at least [P * s^2] and
    all indices in range, [MappingMatrix] returns a [K x P] matrix whose
    entries are natural multiples of [1/s^2] and sum to [P]. *)
Theorem MappingMatrix_entries_total K P s (cl im : list nat) :
  (1 ≤ K)%nat → (1 ≤ P)%nat → (1 ≤ s)%nat →
  (P * s ^ 2 ≤ length cl)%nat → (P * s ^ 2 ≤ length im)%nat →
  Forall (λ r, (r < K)%nat) cl → Forall (λ c, (c < P)%nat) im →
  ∃ M, MappingMatrix K P s cl im = Returns M ∧ has_shape K P M ∧
       (∀ r c, (r < K)%nat → (c < P)%nat →
          ∃ n : nat, entry M r c == nat_to_Q n * (1 / nat_to_Q (s ^ 2))) ∧
       total_sum K P M == nat_to_Q P.
Proof.
  intros _ _ Hs Hcl Him HK HP.
  assert (in_range_upto K P cl im (P * s ^ 2)) as Hr
    by (by apply in_range_upto_intro).
  destruct (MappingMatrix_entries K P s cl im Hs Hr) as (M & Hrun & HsM & HM).
  exists M. split; [exact Hrun|split; [exact HsM|split]].
  - intros r c _ _. eexists. rewrite HM. apply Qsum_count.
  - unfold total_sum, column_sum.
    transitivity (Qsum P (λ j, Qsum (P * s ^ 2)
                    (λ i, ind (at_index_is im j i) (1 / nat_to_Q (s ^ 2))))).
    + apply Qsum_ext. intros j _.
      rewrite (Qsum_ext K _ _ (λ r _, HM r j)). by apply (assigned_rows K P).
    + rewrite (assigned_columns K P) by done. rewrite nat_to_Q_mult.
      assert (0 < nat_to_Q (s ^ 2)) by (apply nat_to_Q_pos; simpl; nia).
      field. lra.
Qed.

Lemma MappingMatrix_entries_total_witness :
  ∃ M, MappingMatrix 2 2 1 [1; 1; 0]%nat [0; 1]%nat = Returns M ∧ has_shape 2 2 M ∧
       (∀ r c, (r < 2)%nat → (c < 2)%nat →
          ∃ n : nat, entry M r c == nat_to_Q n * (1 / nat_to_Q (1 ^ 2))) ∧
       total_sum 2 2 M == nat_to_Q 2.
Proof.
  apply (MappingMatrix_entries_total 2 2 1 [1; 1; 0]%nat [0; 1]%nat);
    [lia | lia | lia | simpl; lia | simpl; lia | repeat constructor; lia
    | repeat constructor; lia].
Defined.

(** ** The regularization matrix *)

Section regularization.
Variables (d : nat) (w : list Q) (nv : list nat).
Hypothesis Hw : (d ≤ length w)%nat.
Hypothesis Hnv : (d ≤ length nv)%nat.

Let rw := weight_sq w.

Lemma reg_weight_index i :
  (i < d)%nat → index ((λ w, w ^ 2) <$> w) i = Returns (rw i).
Proof using Hw.
  clear Hnv. intros Hi. destruct (lookup_lt_is_Some_2 w i) as [x Hx]; [lia|].
  apply index_Returns. rewrite list_lookup_fmap, Hx. simpl.
  unfold rw, weight_sq. by rewrite Hx.
Qed.

(** The first loop writes the diagonal. *)
Lemma diagonal_loop n :
  (n ≤ d)%nat →
  ∃ M, for_each (λ matrix i,
           n ←! index nv i; w ←! index ((λ w, w ^ 2) <$> w) i;
           add_at matrix i i (nat_to_Q n * w)) (seq 0 n) (zeros d d) = Returns M
       ∧ has_shape d d M
       ∧ ∀ r c, entry M r c
                == ind ((r =? c)%nat && (r <? n)%nat) (nat_to_Q (count_at nv r) * rw r).
Proof using Hw Hnv.
  induction n as [|n IH]; intros Hn.
  - exists (zeros d d). split; [done|split; [apply zeros_shape|]].
    intros r c. rewrite entry_zeros. rewrite andb_false_r. reflexivity.
  - destruct IH as (M & Hrun & HsM & HM); [lia|].
    destruct (lookup_lt_is_Some_2 nv n) as [k Hk]; [lia|].
    destruct (add_at_spec d d M n n (nat_to_Q k * rw n) HsM) as (M' & Hadd & HsM' & HM');
      [lia|lia|].
    exists M'. split; [|split; [done|]].
    + rewrite seq_S, for_each_app, Hrun. simpl.
      rewrite (index_Returns _ _ _ Hk). simpl.
      rewrite reg_weight_index by lia. simpl. rewrite Hadd. reflexivity.
    + intros r c. rewrite HM', HM. unfold ind.
      destruct (Nat.eqb_spec r n) as [->|Hrn]; simpl.
      * rewrite (proj2 (Nat.ltb_ge n n)), (proj2 (Nat.ltb_lt n (S n))) by lia.
        rewrite andb_false_r, andb_true_r, (Nat.eqb_sym c n).
        unfold count_at. rewrite Hk. simpl.
        destruct (n =? c)%nat; ring.
      * destruct (Nat.ltb_spec r n), (Nat.ltb_spec r (S n)); try lia; ring.
Qed.

(** The second loop adds [pair_update] for each pair. *)
Lemma pairs_loop pairs M0 :
  has_shape d d M0 → Forall (λ p, (p.1 < d)%nat ∧ (p.2 < d)%nat) pairs →
  ∃ M, for_each (λ matrix pair,
           let p0 := pair.1 in
           let p1 := pair.2 in
           w1 ←! index ((λ w, w ^ 2) <$> w) p1; matrix ←! add_at matrix p0 p0 w1;
           w0 ←! index ((λ w, w ^ 2) <$> w) p0; matrix ←! add_at matrix p1 p1 w0;
           w0 ←! index ((λ w, w ^ 2) <$> w) p0; matrix ←! sub_at matrix p0 p1 w0;
           w0 ←! index ((λ w, w ^ 2) <$> w) p0; matrix ←! sub_at matrix p1 p0 w0;
           w1 ←! index ((λ w, w ^ 2) <$> w) p1; matrix ←! sub_at matrix p0 p1 w1;
           w1 ←! index ((λ w, w ^ 2) <$> w) p1; sub_at matrix p1 p0 w1)
         pairs M0 = Returns M
       ∧ has_shape d d M
       ∧ ∀ r c, entry M r c == entry M0 r c + pairs_update rw pairs r c.
Proof using Hw.
  clear Hnv. intros Hs Hp. revert M0 Hs. induction Hp as [|[a b] ps [Ha Hb] Hps IH]; intros M0 Hs.
  - exists M0. split; [done|split; [done|]]. intros r c. simpl. ring.
  - simpl in Ha, Hb.
    destruct (add_at_spec d d M0 a a (rw b) Hs Ha Ha) as (M1 & E1 & S1 & H1).
    destruct (add_at_spec d d M1 b b (rw a) S1 Hb Hb) as (M2 & E2 & S2 & H2).
    destruct (add_at_spec d d M2 a b (- rw a) S2 Ha Hb) as (M3 & E3 & S3 & H3).
    destruct (add_at_spec d d M3 b a (- rw a) S3 Hb Ha) as (M4 & E4 & S4 & H4).
    destruct (add_at_spec d d M4 a b (- rw b) S4 Ha Hb) as (M5 & E5 & S5 & H5).
    destruct (add_at_spec d d M5 b a (- rw b) S5 Hb Ha) as (M6 & E6 & S6 & H6).
    destruct (IH M6 S6) as (M & Hrun & HsM & HM).
    exists M. split; [|split; [done|]].
    + simpl. unfold sub_at. rewrite !reg_weight_index by done. simpl.
      rewrite E1. simpl. rewrite E2. simpl. rewrite E3. simpl. rewrite E4. simpl.
      rewrite E5. simpl. rewrite E6. simpl. exact Hrun.
    + intros r c. rewrite HM, H6, H5, H4, H3, H2, H1. simpl. unfold pair_update. ring.
Qed.

(** [make_via_pairs] returns, and each entry is the diagonal term plus the
    updates of the pairs. *)
Lemma make_via_pairs_entries pairs :
  Forall (λ p, (p.1 < d)%nat ∧ (p.2 < d)%nat) pairs →
  ∃ M, make_via_pairs d w nv pairs = Returns M ∧ has_shape d d M ∧
       ∀ r c, (r < d)%nat →
         entry M r c == ind (r =? c)%nat (nat_to_Q (count_at nv r) * rw r)
                        + pairs_update rw pairs r c.
Proof using Hw Hnv.
  intros Hp.
  destruct (diagonal_loop d) as (M1 & Hrun1 & Hs1 & HM1); [lia|].
  destruct (pairs_loop pairs M1 Hs1 Hp) as (M & Hrun & HsM & HM).
  exists M. split; [|split; [done|]].
  - unfold make_via_pairs. rewrite Hrun1. simpl. exact Hrun.
  - intros r c Hr. rewrite HM, HM1.
    rewrite (proj2 (Nat.ltb_lt r d)) by done. rewrite andb_true_r. reflexivity.
Qed.
End regularization.

(** Case analysis on every index comparison of the goal. *)
Ltac eqb_cases :=
  repeat match goal with
         | |- context [(?x =? ?y)%nat] => destruct (Nat.eqb_spec x y); subst
         end;
  simpl.

Section pair_updates.
Variable rw : nat → Q.

Lemma pair_update_sym a b r c : pair_update rw a b r c == pair_update rw a b c r.
Proof. unfold pair_update, ind. eqb_cases; ring. Qed.

Lemma pairs_update_sym ps r c : pairs_update rw ps r c == pairs_update rw ps c r.
Proof.
  induction ps as [|p ps IH]; simpl; [reflexivity|].
  rewrite IH, pair_update_sym. reflexivity.
Qed.

Lemma pairs_update_diag d ps i :
  ordered_pairs d ps → pairs_update rw ps i i == partner_sum rw ps i.
Proof.
  induction 1 as [|[a b] ps [Hab _] _ IH]; simpl in *; [reflexivity|].
  rewrite IH. unfold pair_update, ind. eqb_cases; try lia; ring.
Qed.

Lemma pairs_update_absent ps i j :
  i ≠ j → (i, j) ∉ ps → (j, i) ∉ ps → pairs_update rw ps i j == 0.
Proof.
  intros Hij. induction ps as [|[a b] ps IH]; simpl; intros H1 H2; [reflexivity|].
  rewrite not_elem_of_cons in H1, H2. destruct H1 as [H1 H1'], H2 as [H2 H2'].
  rewrite IH by done. unfold pair_update, ind.
  eqb_cases; try congruence; ring.
Qed.

Lemma pairs_update_listed d ps i j :
  ordered_pairs d ps → NoDup ps → (i, j) ∈ ps →
  pairs_update rw ps i j == - (rw i + rw j).
Proof.
  intros Ho. induction Ho as [|[a b] ps [Hab Hb] Ho IH]; intros Hnd Hin.
  - by apply elem_of_nil in Hin.
  - simpl in *. apply NoDup_cons in Hnd as [Hnotin Hnd].
    assert (∀ p, p ∈ ps → (p.1 < p.2)%nat) as Hlt.
    { intros p Hp. unfold ordered_pairs in Ho. rewrite Forall_forall in Ho.
      by apply Ho. }
    apply elem_of_cons in Hin as [Heq|Hin].
    + injection Heq as -> ->.
      rewrite pairs_update_absent; [|lia|done|].
      * unfold pair_update, ind. eqb_cases; try lia; ring.
      * intros Hba. apply Hlt in Hba. simpl in Hba. lia.
    + rewrite IH by done. pose proof (Hlt _ Hin) as Hij. simpl in Hij.
      unfold pair_update, ind. eqb_cases; try lia; try ring.
      by destruct Hnotin.
Qed.
End pair_updates.

(** C4.  For weights and neighbour counts of length at least [d] and a list
    of pairs [(i, j)] with [i < j < d], each listed once, [make_via_pairs]
    returns a [d x d] matrix [H] with
    [H[i][i] = n[i] * w[i]^2 + sum of w[k]^2 over the listed partners k of i],
    [H[i][j] = H[j][i] = -(w[i]^2 + w[j]^2)] for every listed pair, zero for
    every other off-diagonal entry, and [H[i][j] = H[j][i]] throughout. *)
Theorem make_via_pairs_matrix d (w : list Q) (nv : list nat) (pairs : list (nat * nat)) :
  (d ≤ length w)%nat → (d ≤ length nv)%nat →
  ordered_pairs d pairs → NoDup pairs →
  ∃ H, make_via_pairs d w nv pairs = Returns H ∧ has_shape d d H ∧
       (∀ i, (i < d)%nat →
          entry H i i == nat_to_Q (count_at nv i) * weight_sq w i
                         + partner_sum (weight_sq w) pairs i) ∧
       (∀ i j, (i, j) ∈ pairs →
          entry H i j == - (weight_sq w i + weight_sq w j) ∧
          entry H j i == - (weight_sq w i + weight_sq w j)) ∧
       (∀ i j, (i < d)%nat → (j < d)%nat → i ≠ j → (i, j) ∉ pairs → (j, i) ∉ pairs →
          entry H i j == 0) ∧
       (∀ i j, (i < d)%nat → (j < d)%nat → entry H i j == entry H j i).
Proof.
  intros Hw Hnv Ho Hnd.
  assert (Forall (λ p, (p.1 < d)%nat ∧ (p.2 < d)%nat) pairs) as Hp.
  { eapply Forall_impl; [exact Ho|]. intros p [? ?]. simpl. lia. }
  destruct (make_via_pairs_entries d w nv Hw Hnv pairs Hp) as (H & Hrun & Hs & HH).
  exists H. split; [exact Hrun|split; [exact Hs|]].
  split; [|split; [|split]].
  - intros i Hi. rewrite HH by done. rewrite Nat.eqb_refl. simpl.
    by rewrite (pairs_update_diag _ d).
  - intros i j Hin.
    assert ((i < j)%nat ∧ (j < d)%nat) as [Hij Hj].
    { unfold ordered_pairs in Ho. rewrite Forall_forall in Ho. apply (Ho _ Hin). }
    rewrite !HH by lia. rewrite (pairs_update_sym _ _ j i).
    rewrite (pairs_update_listed _ d pairs i j) by done.
    rewrite (proj2 (Nat.eqb_neq i j)), (proj2 (Nat.eqb_neq j i)) by lia.
    simpl. split; ring.
  - intros i j Hi Hj Hij H1 H2. rewrite HH by done.
    rewrite pairs_update_absent by done.
    rewrite (proj2 (Nat.eqb_neq i j)) by done. simpl. ring.
  - intros i j Hi Hj. rewrite !HH by done. rewrite (pairs_update_sym _ _ j i).
    destruct (Nat.eqb_spec i j) as [->|Hne].
    + rewrite Nat.eqb_refl. reflexivity.
    + rewrite (proj2 (Nat.eqb_neq j i)) by lia. reflexivity.
Qed.

Lemma make_via_pairs_matrix_witness :
  ∃ H, make_via_pairs 3 [1; 2; 3] [1; 2; 1]%nat [(0, 1); (1, 2)]%nat = Returns H ∧
       has_shape 3 3 H ∧
       (∀ i, (i < 3)%nat →
          entry H i i == nat_to_Q (count_at [1; 2; 1]%nat i) * weight_sq [1; 2; 3] i
                         + partner_sum (weight_sq [1; 2; 3]) [(0, 1); (1, 2)]%nat i) ∧
       (∀ i j, (i, j) ∈ [(0, 1); (1, 2)]%nat →
          entry H i j == - (weight_sq [1; 2; 3] i + weight_sq [1; 2; 3] j) ∧
          entry H j i == - (weight_sq [1; 2; 3] i + weight_sq [1; 2; 3] j)) ∧
       (∀ i j, (i < 3)%nat → (j < 3)%nat → i ≠ j →
          (i, j) ∉ [(0, 1); (1, 2)]%nat → (j, i) ∉ [(0, 1); (1, 2)]%nat →
          entry H i j == 0) ∧
       (∀ i j, (i < 3)%nat → (j < 3)%nat → entry H i j == entry H j i).
Proof.
  apply (make_via_pairs_matrix 3 [1; 2; 3] [1; 2; 1]%nat [(0, 1); (1, 2)]%nat).
  - simpl. lia.
  - simpl. lia.
  - repeat constructor; simpl; lia.
  - compute_done.
Defined.

(** ** Quadratic forms *)

Section bilinear.
Variables (d : nat) (x : nat → Q).

Lemma bilinear_sum_ext F G :
  (∀ i j, (i < d)%nat → (j < d)%nat → F i j == G i j) →
  bilinear_sum d x F == bilinear_sum d x G.
Proof.
  intros H. apply Qsum_ext. intros i Hi. apply Qsum_ext. intros j Hj.
  rewrite (H i j Hi Hj). reflexivity.
Qed.

Lemma bilinear_sum_plus F G :
  bilinear_sum d x (λ i j, F i j + G i j) == bilinear_sum d x F + bilinear_sum d x G.
Proof.
  unfold bilinear_sum. rewrite <- Qsum_plus. apply Qsum_ext. intros i _.
  rewrite <- Qsum_plus. apply Qsum_ext. intros j _. ring.
Qed.

(** A matrix with a single non-zero entry. *)
Lemma bilinear_sum_cell r c v :
  (r < d)%nat → (c < d)%nat →
  bilinear_sum d x (λ i j, ind ((i =? r)%nat && (j =? c)%nat) v) == x r * v * x c.
Proof.
  intros Hr Hc. unfold bilinear_sum.
  transitivity (Qsum d (λ i, ind (i =? r)%nat (Qsum d (λ j, ind (j =? c)%nat (x i * v * x j))))).
  - apply Qsum_ext. intros i _. unfold ind at 2.
    destruct (i =? r)%nat; simpl.
    + apply Qsum_ext. intros j _. unfold ind. destruct (j =? c)%nat; ring.
    + apply Qsum_zero. intros j _. unfold ind. ring.
  - rewrite Qsum_ind. rewrite (proj2 (Nat.ltb_lt r d)) by done. simpl.
    rewrite Qsum_ind. rewrite (proj2 (Nat.ltb_lt c d)) by done. reflexivity.
Qed.

(** One pair together with its share of the two neighbour counts. *)
Lemma bilinear_sum_pair rw a b :
  (a < d)%nat → (b < d)%nat →
  bilinear_sum d x (λ i j,
      ind ((i =? a)%nat && (j =? a)%nat) (rw a) + ind ((i =? b)%nat && (j =? b)%nat) (rw b)
      + pair_update rw a b i j)
  == (rw a + rw b) * (x a - x b) ^ 2.
Proof.
  intros Ha Hb. unfold pair_update.
  rewrite !bilinear_sum_plus, !bilinear_sum_cell by done. simpl. ring.
Qed.
End bilinear.

Lemma pairs_containing_cons a b ps i :
  (a < b)%nat →
  nat_to_Q (pairs_containing ((a, b) :: ps) i)
  == ind (i =? a)%nat 1 + ind (i =? b)%nat 1 + nat_to_Q (pairs_containing ps i).
Proof.
  intros Hab. unfold pairs_containing. simpl.
  rewrite (Nat.eqb_sym a i), (Nat.eqb_sym b i). unfold ind.
  destruct (Nat.eqb_spec i a), (Nat.eqb_spec i b); subst; simpl; try lia;
    rewrite ?nat_to_Q_S; ring.
Qed.

(** With neighbour counts that agree with the pair list, the quadratic form
    of the matrix is a sum of weighted squared differences. *)
Lemma quadratic_form_energy d x rw ps :
  ordered_pairs d ps →
  bilinear_sum d x (λ i j,
      ind (i =? j)%nat (nat_to_Q (pairs_containing ps i) * rw i) + pairs_update rw ps i j)
  == pairs_energy rw x ps.
Proof.
  induction 1 as [|[a b] ps [Hab Hb] _ IH]; simpl in *.
  - apply Qsum_zero. intros i _. apply Qsum_zero. intros j _.
    unfold pairs_containing, ind. simpl. destruct (i =? j)%nat; unfold nat_to_Q; simpl; ring.
  - rewrite <- IH, <- (bilinear_sum_pair d x rw a b) by lia.
    rewrite <- bilinear_sum_plus. apply bilinear_sum_ext. intros i j _ _.
    unfold ind at 1. destruct (Nat.eqb_spec i j) as [<-|Hij].
    + rewrite pairs_containing_cons by done.
      unfold ind. eqb_cases; ring.
    + unfold ind. eqb_cases; try lia; ring.
Qed.

Lemma Qsquare_nonneg (q : Q) : 0 <= q ^ 2.
Proof.
  simpl. destruct (Qlt_le_dec q 0) as [Hneg|Hpos].
  - assert (q * q == (- q) * (- q)) as -> by ring.
    apply Qmult_le_0_compat; lra.
  - by apply Qmult_le_0_compat.
Qed.

Lemma pairs_energy_nonneg rw x ps : (∀ i, 0 <= rw i) → 0 <= pairs_energy rw x ps.
Proof.
  intros Hrw. induction ps as [|[a b] ps IH]; simpl pairs_energy; [apply Qle_refl|].
  pose proof (Hrw a). pose proof (Hrw b).
  pose proof (Qsquare_nonneg (x a - x b)).
  assert (0 <= (rw a + rw b) * (x a - x b) ^ 2) by (apply Qmult_le_0_compat; lra).
  simpl in *. lra.
Qed.

Lemma weight_sq_nonneg w i : 0 <= weight_sq w i.
Proof. unfold weight_sq. apply Qsquare_nonneg. Qed.

(** For any weights: with consistent neighbour counts the matrix is
    symmetric and its quadratic form is the (non-negative) energy of the
    pairs. *)
Lemma make_via_pairs_quadratic_form d (w : list Q) (nv : list nat) pairs (x : list Q) :
  (d ≤ length w)%nat → (d ≤ length nv)%nat → ordered_pairs d pairs →
  (∀ i, (i < d)%nat → nv !! i = Some (pairs_containing pairs i)) →
  ∃ H, make_via_pairs d w nv pairs = Returns H ∧ has_shape d d H ∧
       (∀ i j, (i < d)%nat → (j < d)%nat → entry H i j == entry H j i) ∧
       quadratic_form d H x == pairs_energy (weight_sq w) (vec_at x) pairs.
Proof.
  intros Hw Hnv Ho Hcount.
  assert (Forall (λ p, (p.1 < d)%nat ∧ (p.2 < d)%nat) pairs) as Hp.
  { eapply Forall_impl; [exact Ho|]. intros p [? ?]. simpl. lia. }
  destruct (make_via_pairs_entries d w nv Hw Hnv pairs Hp) as (H & Hrun & Hs & HH).
  exists H. split; [exact Hrun|split; [exact Hs|split]].
  - intros i j Hi Hj. rewrite !HH by done. rewrite (pairs_update_sym _ _ j i).
    destruct (Nat.eqb_spec i j) as [->|Hne].
    + rewrite Nat.eqb_refl. reflexivity.
    + rewrite (proj2 (Nat.eqb_neq j i)) by lia. reflexivity.
  - rewrite <- (quadratic_form_energy d) by done.
    apply bilinear_sum_ext. intros i j Hi Hj. rewrite HH by done.
    unfold count_at. rewrite (Hcount i Hi). reflexivity.
Qed.

(** C5.  With every weight equal to 1 and neighbour counts that agree with
    the pair list (pairs [(i, j)] with [i < j < d]; the graph may be
    connected or not), [RegularizationMatrix] returns a symmetric matrix [H]
    with [x^T H x >= 0] for every vector [x]. *)
Theorem RegularizationMatrix_uniform_psd d (nv : list nat) (pairs : list (nat * nat)) :
  ordered_pairs d pairs →
  (∀ i, (i < d)%nat → nv !! i = Some (pairs_containing pairs i)) →
  ∃ H, RegularizationMatrix d (replicate d 1) nv pairs = Returns H ∧ has_shape d d H ∧
       (∀ i j, (i < d)%nat → (j < d)%nat → entry H i j == entry H j i) ∧
       (∀ x : list Q, 0 <= quadratic_form d H x).
Proof.
  intros Ho Hcount.
  assert (d ≤ length nv)%nat as Hnv.
  { destruct d as [|d]; [lia|].
    pose proof (lookup_lt_Some nv d _ (Hcount d ltac:(lia))). lia. }
  destruct (make_via_pairs_quadratic_form d (replicate d 1) nv pairs [] )
    as (H & Hrun & Hs & Hsym & _); try done.
  { by rewrite length_replicate. }
  exists H. split; [exact Hrun|split; [exact Hs|split; [exact Hsym|]]].
  intros x.
  destruct (make_via_pairs_quadratic_form d (replicate d 1) nv pairs x)
    as (H' & Hrun' & _ & _ & Hq); try done.
  { by rewrite length_replicate. }
  rewrite Hrun in Hrun'. injection Hrun' as <-.
  rewrite Hq. apply pairs_energy_nonneg, weight_sq_nonneg.
Qed.

Lemma RegularizationMatrix_uniform_psd_witness :
  ∃ H, RegularizationMatrix 3 (replicate 3 1) [1; 2; 1]%nat [(0, 1); (1, 2)]%nat = Returns H ∧
       has_shape 3 3 H ∧
       (∀ i j, (i < 3)%nat → (j < 3)%nat → entry H i j == entry H j i) ∧
       (∀ x : list Q, 0 <= quadratic_form 3 H x).
Proof.
  apply (RegularizationMatrix_uniform_psd 3 [1; 2; 1]%nat [(0, 1); (1, 2)]%nat).
  - repeat constructor; simpl; lia.
  - intros [|[|[|i]]] Hi; try reflexivity; lia.
Defined.

(** ** Cluster assignment *)

Lemma first_min_from_spec (l pre : list Q) bi b :
  pre !! bi = Some b →
  (∀ k y, pre !! k = Some y → b <= y) →
  (∀ k y, pre !! k = Some y → (k < bi)%nat → b < y) →
  ∃ ym, (pre ++ l) !! first_min_from bi b (length pre) l = Some ym ∧
        (∀ k y, (pre ++ l) !! k = Some y → ym <= y) ∧
        (∀ k y, (pre ++ l) !! k = Some y → (k < first_min_from bi b (length pre) l)%nat → ym < y).
Proof.
  revert pre bi b. induction l as [|x l IH]; intros pre bi b Hb Hle Hlt; simpl.
  - exists b. rewrite app_nil_r. auto.
  - assert (length (pre ++ [x]) = S (length pre)) as Hlen
      by (rewrite length_app; simpl; lia).
    assert (∀ k y, (pre ++ [x]) !! k = Some y →
                   pre !! k = Some y ∨ (k = length pre ∧ y = x)) as Hsplit.
    { intros k y Hk. apply lookup_app_Some in Hk as [Hk|[Hk1 Hk2]]; [by left|right].
      destruct (k - length pre)%nat as [|?] eqn:E; simpl in Hk2; [|done].
      split; [lia|congruence]. }
    rewrite (cons_middle x pre l), app_assoc, <- Hlen.
    destruct (Qlt_le_dec x b) as [Hx|Hx].
    + assert ((pre ++ [x]) !! length pre = Some x) as Hx'
        by (rewrite lookup_app_r, Nat.sub_diag by lia; done).
      apply IH; [done| |].
      * intros k y Hk. destruct (Hsplit k y Hk) as [Hk'|[-> ->]]; [|lra].
        pose proof (Hle k y Hk'). lra.
      * intros k y Hk Hkl. destruct (Hsplit k y Hk) as [Hk'|[-> ->]]; [|lia].
        pose proof (Hle k y Hk'). lra.
    + apply IH.
      * rewrite lookup_app_l; [done|]. by eapply lookup_lt_Some.
      * intros k y Hk. destruct (Hsplit k y Hk) as [Hk'|[-> ->]]; [|lra].
        by eapply Hle.
      * intros k y Hk Hkl. destruct (Hsplit k y Hk) as [Hk'|[-> ->]].
        -- by eapply Hlt.
        -- apply lookup_lt_Some in Hb. lia.
Qed.

(** [argmin] of a non-empty list returns the first index of a minimal
    element. *)
Lemma argmin_spec (l : list Q) :
  l ≠ [] →
  ∃ m ym, argmin l = Returns m ∧ l !! m = Some ym ∧
          (∀ k y, l !! k = Some y → ym <= y) ∧
          (∀ k y, l !! k = Some y → (k < m)%nat → ym < y).
Proof.
  destruct l as [|x l]; [done|]. intros _.
  destruct (first_min_from_spec l [x] 0 x) as (ym & H1 & H2 & H3).
  - done.
  - intros [|k] y Hk; simpl in Hk; [|done]. injection Hk as <-. lra.
  - intros k y _ Hk. lia.
  - exists (first_min_from 0 x 1 l), ym. simpl in *. auto.
Qed.

Lemma map_each_Returns {A B} (f : A → outcome B) (g : A → B) xs :
  (∀ x, x ∈ xs → f x = Returns (g x)) → map_each f xs = Returns (g <$> xs).
Proof.
  induction xs as [|x xs IH]; intros H; simpl; [done|].
  rewrite H by apply list_elem_of_here. simpl.
  rewrite IH by (intros; apply H; by apply list_elem_of_further). done.
Qed.

Lemma count_below_mono n p q :
  (∀ k, (k < n)%nat → p k = true → q k = true) →
  (count_below n p ≤ count_below n q)%nat.
Proof.
  induction n as [|n IH]; intros H; simpl; [lia|].
  specialize (IH (λ k Hk, H k (Nat.lt_lt_succ_r _ _ Hk))).
  specialize (H n (Nat.lt_succ_diag_r n)).
  destruct (p n), (q n); try lia; by specialize (H eq_refl).
Qed.

Lemma count_below_strict n p q k0 :
  (∀ k, (k < n)%nat → p k = true → q k = true) →
  (k0 < n)%nat → p k0 = false → q k0 = true →
  (count_below n p < count_below n q)%nat.
Proof.
  induction n as [|n IH]; intros H Hk0 Hp Hq; simpl; [lia|].
  pose proof (count_below_mono n p q (λ k Hk, H k (Nat.lt_lt_succ_r _ _ Hk))) as Hmono.
  destruct (decide (k0 = n)) as [->|Hne].
  - rewrite Hp, Hq. lia.
  - specialize (IH (λ k Hk, H k (Nat.lt_lt_succ_r _ _ Hk)) ltac:(lia) Hp Hq).
    specialize (H n (Nat.lt_succ_diag_r n)).
    destruct (p n), (q n); try lia; by specialize (H eq_refl).
Qed.

Lemma count_below_excluded n p c :
  (c < n)%nat → p c = false → (count_below n p < n)%nat.
Proof.
  induction n as [|n IH]; intros Hc Hp; simpl; [lia|].
  destruct (decide (c = n)) as [->|Hne].
  - rewrite Hp. pose proof (count_below_mono n p (λ _, true) (λ _ _ _, eq_refl)) as H.
    assert (count_below n (λ _, true) = n) as E
      by (clear; induction n; simpl; lia).
    lia.
  - specialize (IH ltac:(lia) Hp). destruct (p n); lia.
Qed.

Section walk.
Variables (centers : list coordinate) (nbrs : list (list nat)) (p : coordinate).
Hypothesis Hwf : well_formed_adjacency centers nbrs.

Let sep := separation_to centers p.

Lemma center_index c :
  (c < length centers)%nat → index centers c = Returns (center_at centers c).
Proof using Type.
  intros Hc. destruct (lookup_lt_is_Some_2 centers c Hc) as [x Hx].
  unfold center_at. rewrite Hx. by apply index_Returns.
Qed.

Lemma neighbors_index c :
  (c < length centers)%nat → index nbrs c = Returns (neighbors_of nbrs c).
Proof using Hwf.
  intros Hc. destruct (lookup_lt_is_Some_2 nbrs c) as [l Hl].
  { by rewrite (wf_length _ _ Hwf). }
  unfold neighbors_of. rewrite Hl. by apply index_Returns.
Qed.

(** The nearest neighbouring cluster of an in-range, non-empty list. *)
Lemma nearest_neighboring_cluster (l : list nat) :
  l ≠ [] → (∀ n, n ∈ l → (n < length centers)%nat) →
  ∃ n, find_separation_and_index_of_nearest_neighboring_cluster p centers l
       = Returns (n, sep n)
       ∧ n ∈ l ∧ ∀ n', n' ∈ l → sep n <= sep n'.
Proof using Type.
  intros Hne Hr. unfold find_separation_and_index_of_nearest_neighboring_cluster.
  rewrite (map_each_Returns _ sep l).
  2:{ intros n Hn. rewrite center_index by auto. done. }
  simpl. destruct (argmin_spec (sep <$> l)) as (ai & ym & Harg & Hai & Hmin & _).
  { by destruct l. }
  rewrite Harg. simpl. rewrite list_lookup_fmap in Hai.
  destruct (l !! ai) as [n|] eqn:Hn; [|done]. simpl in Hai. injection Hai as <-.
  exists n. rewrite (index_Returns _ _ _ Hn). simpl.
  rewrite (index_Returns (sep <$> l) ai (sep n)) by (by rewrite list_lookup_fmap, Hn).
  split; [done|]. split; [by eapply list_elem_of_lookup_2|].
  intros n' Hn'. apply list_elem_of_lookup_1 in Hn' as [k Hk].
  apply (Hmin k). by rewrite list_lookup_fmap, Hk.
Qed.

(** One iteration of the loop at an in-range cluster. *)
Lemma neighbor_walk_step fuel c :
  (c < length centers)%nat →
  ∃ n, n ∈ neighbors_of nbrs c ∧ (∀ n', n' ∈ neighbors_of nbrs c → sep n <= sep n') ∧
       neighbor_walk (S fuel) p centers nbrs c
       = if Qlt_le_dec (sep c) (sep n) then Returns c
         else neighbor_walk fuel p centers nbrs n.
Proof using Hwf.
  intros Hc.
  destruct (nearest_neighboring_cluster (neighbors_of nbrs c)) as (n & Hfind & Hn & Hmin).
  { by apply (wf_nonempty _ _ Hwf). }
  { intros n. apply (wf_in_range _ _ Hwf). }
  exists n. split; [done|split; [done|]].
  simpl. unfold find_separation_of_sub_coordinate_and_nearest_sparse_cluster.
  rewrite center_index by done. simpl. rewrite neighbors_index by done. simpl.
  rewrite Hfind. simpl. reflexivity.
Qed.

Lemma rank_lt c : (c < length centers)%nat → (rank centers p c < length centers)%nat.
Proof using Type.
  intros Hc. apply (count_below_excluded _ _ c Hc).
  unfold closer_than. destruct (Qlt_le_dec _ _) as [H|H]; [|done]. lra.
Qed.

Lemma rank_decreases n c :
  (n < length centers)%nat → sep n < sep c → (rank centers p n < rank centers p c)%nat.
Proof using Type.
  intros Hn Hlt. apply (count_below_strict _ _ _ n); try done.
  - intros k _. unfold closer_than. fold sep.
    destruct (Qlt_le_dec (sep k) (sep n)), (Qlt_le_dec (sep k) (sep c)); try done. lra.
  - unfold closer_than. destruct (Qlt_le_dec _ _) as [H|H]; [|done]. lra.
  - unfold closer_than. fold sep. destruct (Qlt_le_dec (sep n) (sep c)); [done|lra].
Qed.

(** With a unique nearest centre [m], the walk from any in-range cluster [c]
    reaches [m] in at most [rank c + 1] iterations. *)
Lemma neighbor_walk_converges m :
  unique_nearest centers p m →
  ∀ r c fuel, (c < length centers)%nat → (rank centers p c ≤ r)%nat → (r < fuel)%nat →
              neighbor_walk fuel p centers nbrs c = Returns m.
Proof using Hwf.
  intros [Hm Huniq]. induction r as [|r IH]; intros c fuel Hc Hrank Hfuel.
  all: destruct fuel as [|fuel]; [lia|].
  all: destruct (neighbor_walk_step fuel c Hc) as (n & Hn & Hmin & ->).
  all: pose proof (wf_in_range _ _ Hwf _ _ Hn) as Hnr.
  all: destruct (Qlt_le_dec (sep c) (sep n)) as [Hstop|Hmove].
  all: try (f_equal; destruct (decide (c = m)) as [|Hne]; [done|exfalso];
            destruct (wf_delaunay _ _ Hwf p c m Hc Hm (Huniq c Hc Hne)) as (n' & Hn' & Hlt);
            specialize (Hmin n' Hn'); unfold sep in *; lra).
  all: assert (c ≠ m) as Hne
      by (intros ->; assert (n ≠ m) by (intros ->; by apply (wf_irreflexive _ _ Hwf m));
          pose proof (Huniq n Hnr ltac:(done)); unfold sep in *; lra).
  all: destruct (wf_delaunay _ _ Hwf p c m Hc Hm (Huniq c Hc Hne)) as (n' & Hn' & Hlt).
  all: specialize (Hmin n' Hn').
  all: assert (sep n < sep c) as Hdec by (unfold sep in *; lra).
  all: pose proof (rank_decreases n c Hnr Hdec).
  - lia.
  - apply IH; [done|lia|lia].
Qed.
End walk.

Lemma separations_lookup centers p k :
  (k < length centers)%nat →
  (compute_squared_separation p <$> centers) !! k = Some (separation_to centers p k).
Proof.
  intros Hk. destruct (lookup_lt_is_Some_2 centers k Hk) as [x Hx].
  rewrite list_lookup_fmap. unfold separation_to, center_at. by rewrite Hx.
Qed.

(** The exhaustive scan returns a centre at minimal squared separation. *)
Lemma exhaustive_nearest centers p :
  centers ≠ [] →
  ∃ m, argmin (compute_squared_separation p <$> centers) = Returns m ∧ nearest centers p m.
Proof.
  intros Hne.
  destruct (argmin_spec (compute_squared_separation p <$> centers))
    as (m & ym & Harg & Hm & Hmin & _); [by destruct centers|].
  exists m. split; [done|].
  assert (m < length centers)%nat as Hlt.
  { apply lookup_lt_Some in Hm. by rewrite length_fmap in Hm. }
  split; [done|]. intros k Hk.
  rewrite separations_lookup in Hm by done. injection Hm as <-.
  apply (Hmin k). by apply separations_lookup.
Qed.

Lemma exhaustive_unique centers p m :
  unique_nearest centers p m →
  argmin (compute_squared_separation p <$> centers) = Returns m.
Proof.
  intros [Hm Huniq].
  destruct (exhaustive_nearest centers p) as (m' & Harg & Hm' & Hmin).
  { intros ->. simpl in Hm. lia. }
  rewrite Harg. f_equal. destruct (decide (m' = m)) as [|Hne]; [done|exfalso].
  pose proof (Huniq m' Hm' Hne). pose proof (Hmin m Hm). lra.
Qed.

Lemma elem_of_enumerate_from {A} (l : list A) start i x :
  (i, x) ∈ enumerate_from start l → (start ≤ i)%nat ∧ l !! (i - start)%nat = Some x.
Proof.
  revert start. induction l as [|y l IH]; intros start Hin; simpl in Hin.
  - by apply elem_of_nil in Hin.
  - apply elem_of_cons in Hin as [Heq|Hin].
    + injection Heq as -> ->. rewrite Nat.sub_diag. done.
    + apply IH in Hin as [Hle Hl]. split; [lia|].
      replace (i - start)%nat with (S (i - S start)) by lia. done.
Qed.

Lemma snd_enumerate_from {A} (l : list A) start : (enumerate_from start l).*2 = l.
Proof. revert start. induction l as [|y l IH]; intros start; simpl; [done|]. by rewrite IH. Qed.

(** Away from ties the loop does stop: for a well-formed adjacency graph and
    a sub-pixel with a unique nearest centre, the walk from any in-range
    cluster returns that centre after at most [cell_count] iterations (the
    number of centres nearer than the start, plus one). *)
Lemma neighbor_walk_terminates centers nbrs p c m :
  well_formed_adjacency centers nbrs → unique_nearest centers p m →
  (c < length centers)%nat →
  (rank centers p c < length centers)%nat ∧
  ∀ fuel, (rank centers p c < fuel)%nat →
          neighbor_walk fuel p centers nbrs c = Returns m.
Proof.
  intros Hwf Hm Hc. split; [by apply rank_lt|].
  intros fuel Hfuel.
  by apply (neighbor_walk_converges centers nbrs p Hwf m Hm (rank centers p c)).
Qed.

(** Away from ties the two strategies agree: for a well-formed adjacency
    graph, sub-pixels that each have a unique nearest centre and sparse pairs
    that start every walk at an in-range cluster, the accelerated strategy
    returns (with [cell_count] iterations or more per sub-pixel) the list the
    exhaustive strategy returns, each index that of a centre at minimal
    squared separation. *)
Lemma sparse_pairs_equals_nearest_neighbour
    (subs centers : list coordinate) (nbrs : list (list nat))
    (sub_to_sparse sparse_to_cluster : list nat) :
  well_formed_adjacency centers nbrs →
  (∀ p, p ∈ subs → ∃ m, unique_nearest centers p m) →
  (∀ i, (i < length subs)%nat →
        ∃ s c, sub_to_sparse !! i = Some s ∧ sparse_to_cluster !! s = Some c
               ∧ (c < length centers)%nat) →
  ∀ fuel, (length centers ≤ fuel)%nat →
  ∃ l, sub_coordinates_to_clusters_via_sparse_pairs
         fuel subs centers nbrs sub_to_sparse sparse_to_cluster = Returns l
       ∧ sub_coordinates_to_clusters_via_nearest_neighbour subs centers = Returns l
       ∧ Forall2 (nearest centers) subs l.
Proof.
  intros Hwf Huniq Hstart fuel Hfuel.
  assert (∀ p, p ∈ subs →
               argmin (compute_squared_separation p <$> centers)
               = Returns (nearest_index centers p)
               ∧ unique_nearest centers p (nearest_index centers p)) as Hidx.
  { intros p Hp. destruct (Huniq p Hp) as [m Hm]. unfold nearest_index.
    by rewrite (exhaustive_unique centers p m Hm). }
  exists (nearest_index centers <$> subs). split; [|split].
  - unfold sub_coordinates_to_clusters_via_sparse_pairs.
    rewrite (map_each_Returns _ (λ ix, nearest_index centers ix.2)).
    + f_equal. transitivity (nearest_index centers <$> (enumerate_from 0 subs).*2).
      * by rewrite <- list_fmap_compose.
      * by rewrite snd_enumerate_from.
    + intros [i p] Hin. apply elem_of_enumerate_from in Hin as [_ Hp].
      rewrite Nat.sub_0_r in Hp. simpl.
      destruct (Hstart i) as (s & c & Hs & Hc & Hlt); [by eapply lookup_lt_Some|].
      unfold find_index_of_nearest_sparse_coordinate, find_index_of_nearest_sparse_cluster.
      rewrite (index_Returns _ _ _ Hs). simpl. rewrite (index_Returns _ _ _ Hc). simpl.
      destruct (Hidx p) as [_ Hm]; [by eapply list_elem_of_lookup_2|].
      apply (neighbor_walk_converges centers nbrs p Hwf _ Hm (rank centers p c)); try done.
      pose proof (rank_lt centers p c Hlt). lia.
  - unfold sub_coordinates_to_clusters_via_nearest_neighbour.
    apply map_each_Returns. intros p Hp. by apply Hidx.
  - apply Forall2_fmap_r, Forall_Forall2_diag, Forall_forall. intros p Hp.
    destruct (Hidx p Hp) as [_ [Hm Hlt]]. split; [done|].
    intros k Hk. destruct (decide (k = nearest_index centers p)) as [->|Hne]; [lra|].
    pose proof (Hlt k Hk Hne). lra.
Qed.

Ltac separations :=
  unfold separation_to, center_at, compute_squared_separation in *; simpl in *.

Lemma tie_well_formed : well_formed_adjacency tie_centers tie_neighbors.
Proof.
  split.
  - done.
  - intros [|[|[|[|c]]]] n Hn; vm_compute in Hn;
      repeat (apply elem_of_cons in Hn as [->|Hn]; [simpl; lia|]);
      by apply elem_of_nil in Hn.
  - intros [|[|[|[|c]]]] Hc; try done. simpl in Hc. lia.
  - intros [|[|[|[|c]]]] Hn; vm_compute in Hn;
      repeat (apply elem_of_cons in Hn as [?|Hn]; [done|]);
      by apply elem_of_nil in Hn.
  - intros [|[|[|[|c]]]] n Hn; vm_compute in Hn;
      repeat (apply elem_of_cons in Hn as [->|Hn]; [compute_done|]);
      by apply elem_of_nil in Hn.
  - intros [x y] c k Hc Hk Hlt. simpl in Hc, Hk.
    destruct c as [|[|[|[|c]]]]; [| | | |lia].
    + destruct k as [|[|[|[|k]]]]; [separations; lra| | | |lia].
      * exists 1%nat. split; [compute_done|done].
      * exists 2%nat. split; [compute_done|done].
      * exists 3%nat. split; [compute_done|done].
    + destruct k as [|[|[|[|k]]]]; [|separations; lra| | |lia].
      * exists 0%nat. split; [compute_done|done].
      * exists 2%nat. split; [compute_done|done].
      * exists 3%nat. split; [compute_done|done].
    + destruct (Qlt_le_dec (separation_to tie_centers (x, y) 0)
                           (separation_to tie_centers (x, y) 2)) as [H0|H0].
      * exists 0%nat. split; [compute_done|done].
      * exists 1%nat. split; [compute_done|].
        destruct k as [|[|[|[|k]]]]; [| | | |lia]; separations; lra.
    + destruct (Qlt_le_dec (separation_to tie_centers (x, y) 0)
                           (separation_to tie_centers (x, y) 3)) as [H0|H0].
      * exists 0%nat. split; [compute_done|done].
      * exists 1%nat. split; [compute_done|].
        destruct k as [|[|[|[|k]]]]; [| | | |lia]; separations; lra.
Qed.

Ltac ridge_at x :=
  let k := fresh "k" in
  let Hk := fresh "Hk" in
  split; [lia|]; exists x; split; [reflexivity|];
  intros k Hk ? ?; simpl in Hk;
  destruct k as [|[|[|[|k]]]]; try lia; try done.

(** The adjacency lists of the example are exactly the shared ridges of the
    Voronoi cells of its centres. *)
Lemma tie_voronoi : voronoi_neighbors tie_centers tie_neighbors.
Proof.
  split; [done|]. intros i j Hi Hj. simpl in Hi, Hj.
  destruct i as [|[|[|[|i]]]]; [| | | |lia];
    (destruct j as [|[|[|[|j]]]]; [| | | |lia]).
  all: split; [intros Hin|intros Hr].
  all: try (exfalso; vm_compute in Hin;
            repeat (apply elem_of_cons in Hin as [?|Hin]; [done|]);
            by apply elem_of_nil in Hin).
  all: try (by destruct Hr as [? _]).
  all: try compute_done.
  - ridge_at ((1, 0) : coordinate).
  - ridge_at ((-10, 5) : coordinate).
  - ridge_at ((-10, -5) : coordinate).
  - ridge_at ((1, 0) : coordinate).
  - ridge_at ((12, 5) : coordinate).
  - ridge_at ((12, -5) : coordinate).
  - ridge_at ((-10, 5) : coordinate).
  - ridge_at ((12, 5) : coordinate).
  - destruct Hr as [_ ([x y] & Heq & Hfar)].
    pose proof (Hfar 0%nat ltac:(simpl; lia) ltac:(done) ltac:(done)).
    pose proof (Hfar 1%nat ltac:(simpl; lia) ltac:(done) ltac:(done)).
    separations. lra.
  - ridge_at ((-10, -5) : coordinate).
  - ridge_at ((12, -5) : coordinate).
  - destruct Hr as [_ ([x y] & Heq & Hfar)].
    pose proof (Hfar 0%nat ltac:(simpl; lia) ltac:(done) ltac:(done)).
    pose proof (Hfar 1%nat ltac:(simpl; lia) ltac:(done) ltac:(done)).
    separations. lra.
Qed.

(** [Voronoi.__init__] builds the lists of the example from its ridges, and
    the neighbour totals are the counts the regularization matrix expects. *)
Lemma tie_neighbors_from_ridge_points :
  Voronoi_neighbors (length tie_centers) tie_ridge_points = Returns tie_neighbors ∧
  (∀ i j, (i, j) ∈ tie_ridge_points → shares_ridge tie_centers i j) ∧
  ∀ i, (i < length tie_centers)%nat →
       Voronoi_neighbors_total tie_neighbors !! i = Some (pairs_containing tie_ridge_points i).
Proof.
  split; [reflexivity|split].
  - intros i j Hin. apply tie_voronoi.
    all: unfold tie_ridge_points in Hin.
    all: repeat (apply elem_of_cons in Hin as [Heq|Hin];
                 [injection Heq as -> ->; try (simpl; lia); try compute_done|]).
    all: by apply elem_of_nil in Hin.
  - intros [|[|[|[|i]]]] Hi; try reflexivity. simpl in Hi. lia.
Qed.

(** On the tie the walk moves from cluster 0 to cluster 1 and back, for
    ever. *)
Lemma tie_walk_diverges fuel :
  neighbor_walk fuel tie_sub_coordinate tie_centers tie_neighbors 0 = Diverges ∧
  neighbor_walk fuel tie_sub_coordinate tie_centers tie_neighbors 1 = Diverges.
Proof.
  induction fuel as [|fuel [IH0 IH1]]; [done|]. split.
  - change (neighbor_walk (S fuel) tie_sub_coordinate tie_centers tie_neighbors 0)
      with (neighbor_walk fuel tie_sub_coordinate tie_centers tie_neighbors 1).
    exact IH1.
  - change (neighbor_walk (S fuel) tie_sub_coordinate tie_centers tie_neighbors 1)
      with (neighbor_walk fuel tie_sub_coordinate tie_centers tie_neighbors 0).
    exact IH0.
Qed.

Ltac unique_nearest_by_evaluation :=
  let k := fresh "k" in
  let Hk := fresh "Hk" in
  split; [simpl; lia|];
  intros k Hk ?; simpl in Hk;
  destruct k as [|[|[|[|k]]]]; try lia; try done.

Lemma neighbor_walk_terminates_example :
  (rank tie_centers example_sub_coordinate 2 < length tie_centers)%nat ∧
  ∀ fuel, (rank tie_centers example_sub_coordinate 2 < fuel)%nat →
          neighbor_walk fuel example_sub_coordinate tie_centers tie_neighbors 2 = Returns 1%nat.
Proof.
  apply (neighbor_walk_terminates tie_centers tie_neighbors example_sub_coordinate 2 1).
  - exact tie_well_formed.
  - unique_nearest_by_evaluation.
  - simpl. lia.
Defined.

Lemma sparse_pairs_equals_nearest_neighbour_example :
  ∃ l, sub_coordinates_to_clusters_via_sparse_pairs 4
         example_sub_coordinates tie_centers tie_neighbors
         [0; 0; 0]%nat [2]%nat = Returns l
       ∧ sub_coordinates_to_clusters_via_nearest_neighbour
           example_sub_coordinates tie_centers = Returns l
       ∧ Forall2 (nearest tie_centers) example_sub_coordinates l.
Proof.
  apply (sparse_pairs_equals_nearest_neighbour
           example_sub_coordinates tie_centers tie_neighbors
           [0; 0; 0]%nat [2]%nat).
  - exact tie_well_formed.
  - intros p Hp. unfold example_sub_coordinates in Hp.
    apply elem_of_cons in Hp as [->|Hp]; [exists 1%nat; unique_nearest_by_evaluation|].
    apply elem_of_cons in Hp as [->|Hp]; [exists 2%nat; unique_nearest_by_evaluation|].
    apply elem_of_cons in Hp as [->|Hp]; [exists 3%nat; unique_nearest_by_evaluation|].
    by apply elem_of_nil in Hp.
  - intros i Hi. simpl in Hi. exists 0%nat, 2%nat.
    destruct i as [|[|[|i]]]; [| | |lia]; (split; [reflexivity|split; [reflexivity|simpl; lia]]).
  - simpl. lia.
Defined.

(** C2 (defect).  The centres (0,0), (2,0), (1,3), (1,-3) with the adjacency
    lists [Voronoi.__init__] builds from their ridges, which are exactly the
    shared ridges of their Voronoi cells; the sub-pixel (1,0) is at squared
    separation 1 from clusters 0 and 1 and at 9 from the others.  The walk
    from cluster 0 moves to cluster 1 and back and neither returns nor
    raises, whatever the number of iterations: the loop is left only when
    the current cluster is strictly nearer than its nearest neighbour. *)
Theorem neighbor_walk_tie_never_returns :
  Voronoi_neighbors (length tie_centers) tie_ridge_points = Returns tie_neighbors ∧
  well_formed_adjacency tie_centers tie_neighbors ∧
  voronoi_neighbors tie_centers tie_neighbors ∧
  nearest tie_centers tie_sub_coordinate 0 ∧
  separation_to tie_centers tie_sub_coordinate 1
  == separation_to tie_centers tie_sub_coordinate 0 ∧
  ∀ fuel, neighbor_walk fuel tie_sub_coordinate tie_centers tie_neighbors 0 = Diverges ∧
          neighbor_walk fuel tie_sub_coordinate tie_centers tie_neighbors 1 = Diverges.
Proof.
  split; [reflexivity|]. split; [exact tie_well_formed|]. split; [exact tie_voronoi|].
  split; [|split; [reflexivity|exact tie_walk_diverges]].
  split; [simpl; lia|]. intros k Hk. simpl in Hk.
  destruct k as [|[|[|[|k]]]]; try lia; done.
Qed.

(** C1 (defect).  On the same centres and adjacency lists, with the
    sub-pixel (1,0) as the only sparse coordinate, exhaustively assigned to
    cluster 0 (a centre at minimal squared separation): the exhaustive
    strategy returns cluster 0 and the accelerated strategy returns nothing,
    whatever the number of iterations. *)
Theorem sparse_pairs_tie_never_returns :
  well_formed_adjacency tie_centers tie_neighbors ∧
  voronoi_neighbors tie_centers tie_neighbors ∧
  sub_coordinates_to_clusters_via_nearest_neighbour [tie_sub_coordinate] tie_centers
  = Returns [0%nat] ∧
  Forall2 (nearest tie_centers) [tie_sub_coordinate] [0%nat] ∧
  ∀ fuel, sub_coordinates_to_clusters_via_sparse_pairs
            fuel [tie_sub_coordinate] tie_centers tie_neighbors [0%nat] [0%nat]
          = Diverges.
Proof.
  split; [exact tie_well_formed|split; [exact tie_voronoi|split; [reflexivity|split]]].
  - repeat constructor. intros k Hk. simpl in Hk.
    destruct k as [|[|[|[|k]]]]; try lia; done.
  - intros fuel. unfold sub_coordinates_to_clusters_via_sparse_pairs. simpl.
    by rewrite (proj1 (tie_walk_diverges fuel)).
Qed.

(** ** The evidence *)

(** C6.  The evidence is [-0.5] times the sum of the chi-squared, the
    regularization term, the log-determinant of the curvature-regularization
    matrix and the noise normalization, less the log-determinant of the
    regularization matrix: each term enters with weight [-1/2], the
    log-determinant of the regularization matrix with weight [+1/2]; it is
    the regularized likelihood less half the difference of the two
    log-determinants. *)
Theorem evidence_from_inversion_terms_formula
    (chi_squared regularization_term log_curvature_regularization_term
       log_regularization_term noise_normalization : Q) :
  evidence_from_inversion_terms chi_squared regularization_term
    log_curvature_regularization_term log_regularization_term noise_normalization
  == - (1 # 2) * (chi_squared + regularization_term + log_curvature_regularization_term
                  - log_regularization_term + noise_normalization)
  ∧ evidence_from_inversion_terms chi_squared regularization_term
      log_curvature_regularization_term log_regularization_term noise_normalization
    == - (1 # 2) * chi_squared - (1 # 2) * regularization_term
       - (1 # 2) * log_curvature_regularization_term
       + (1 # 2) * log_regularization_term - (1 # 2) * noise_normalization
  ∧ evidence_from_inversion_terms chi_squared regularization_term
      log_curvature_regularization_term log_regularization_term noise_normalization
    == likelihood_with_regularization_from_chi_squared_regularization_term_and_noise_normalization
         chi_squared regularization_term noise_normalization
       - (1 # 2) * (log_curvature_regularization_term - log_regularization_term).
Proof.
  unfold evidence_from_inversion_terms,
    likelihood_with_regularization_from_chi_squared_regularization_term_and_noise_normalization.
  repeat split; ring.
Qed.

(** ** Border relocation *)

Close Scope Q_scope.
Open Scope R_scope.

Lemma polyval_constant_one theta : polyval [0; 1] theta = 1.
Proof. unfold polyval. simpl. ring. Qed.

(** [sqrt a = v] for a non-negative [v] whose square is [a]. *)
Lemma sqrt_is (a v : R) : 0 <= v → a = v * v → sqrt a = v.
Proof. intros Hv ->. by apply sqrt_square. Qed.

Lemma squared_residuals_nonneg p xs ys : 0 <= squared_residuals p xs ys.
Proof.
  unfold squared_residuals. revert ys.
  induction xs as [|x xs IH]; intros [|y ys]; simpl; try lra.
  specialize (IH ys). pose proof (pow2_ge_0 (polyval p x - y)). simpl in *. lra.
Qed.

Lemma squared_residuals_exact p (angle radius : point → R) (cs : list point) :
  Forall (λ c, polyval p (angle c) = radius c) cs →
  squared_residuals p (angle <$> cs) (radius <$> cs) = 0.
Proof.
  unfold squared_residuals.
  induction 1 as [|c cs Hc _ IH]; simpl; [done|].
  simpl in IH. unfold fmap in IH. rewrite IH, Hc. ring.
Qed.

(** A polynomial through every border point is a least-squares fit. *)
Lemma exact_fit_fitted border degree :
  length (polynomial border) = S degree →
  Forall (λ c, border_radius_at_theta border (coordinates_angle_from_x (border_centre border) c)
               = coordinates_to_radius (border_centre border) c)
         (border_coordinates border) →
  fitted border degree.
Proof.
  intros Hlen Hexact. split; [done|]. intros q _.
  unfold thetas, radii. rewrite squared_residuals_exact by exact Hexact.
  apply squared_residuals_nonneg.
Qed.

Lemma offset_border_fitted : fitted offset_border 1.
Proof.
  apply exact_fit_fitted; [done|].
  unfold border_radius_at_theta, coordinates_to_radius. simpl.
  repeat (apply Forall_cons; split;
          [rewrite polyval_constant_one; symmetry; apply sqrt_is; simpl; lra|]).
  apply Forall_nil_2.
Qed.

Lemma unit_border_fitted : fitted unit_border 1.
Proof.
  apply exact_fit_fitted; [done|].
  unfold border_radius_at_theta, coordinates_to_radius. simpl.
  repeat (apply Forall_cons; split;
          [rewrite polyval_constant_one; symmetry; apply sqrt_is; simpl; lra|]).
  apply Forall_nil_2.
Qed.

(** A coordinate within the border is not moved. *)
Lemma relocated_within border c :
  within_border border c → relocated_coordinate border c = c.
Proof.
  unfold within_border, relocated_coordinate, move_factor. intros Hin.
  destruct (Rgt_dec _ _) as [Hgt|_]; [lra|].
  destruct c as [x y]. simpl. f_equal; ring.
Qed.

(** The move factor of a coordinate outside the border. *)
Lemma move_factor_outside border c :
  ¬ within_border border c →
  move_factor border c
  = border_radius_at_theta border (coordinates_angle_from_x (border_centre border) c)
    / coordinates_to_radius (border_centre border) c.
Proof.
  unfold within_border, move_factor. intros Hout.
  destruct (Rgt_dec _ _) as [_|Hle]; [done|]. lra.
Qed.

Lemma radius_scaled (x y f : R) :
  0 <= f → sqrt ((x * f) ^ 2 + (y * f) ^ 2) = f * sqrt (x ^ 2 + y ^ 2).
Proof.
  intros Hf. replace ((x * f) ^ 2 + (y * f) ^ 2) with (f * f * (x ^ 2 + y ^ 2)) by ring.
  rewrite sqrt_mult_alt by nra. by rewrite sqrt_square.
Qed.

Lemma radius_origin (x y : R) : coordinates_to_radius (0, 0) (x, y) = sqrt (x ^ 2 + y ^ 2).
Proof. unfold coordinates_to_radius, coordinates_to_centre. simpl. f_equal. ring. Qed.

(** About the origin, a coordinate outside a border of non-negative radius is
    moved onto the border. *)
Lemma relocated_radius_origin border c :
  border_centre border = (0, 0) →
  0 <= border_radius_at_theta border (coordinates_angle_from_x (0, 0) c) →
  ¬ within_border border c →
  coordinates_to_radius (0, 0) (relocated_coordinate border c)
  = border_radius_at_theta border (coordinates_angle_from_x (0, 0) c).
Proof.
  intros Hc Hpos Hout. unfold relocated_coordinate.
  rewrite move_factor_outside by done. unfold within_border in Hout. rewrite Hc in *.
  set (br := border_radius_at_theta border (coordinates_angle_from_x (0, 0) c)) in *.
  assert (br < coordinates_to_radius (0, 0) c) as Hlt by lra.
  destruct c as [x y]. cbn [fst snd]. rewrite radius_origin in *.
  set (r := sqrt (x ^ 2 + y ^ 2)) in *.
  assert (0 < r) by lra.
  rewrite radius_scaled.
  - rewrite radius_origin. fold r. field. lra.
  - rewrite radius_origin. fold r.
    apply Rmult_le_pos; [done|]. left. by apply Rinv_0_lt_compat.
Qed.

Lemma arctan2_scale (y x f : R) : 0 < f → arctan2 (y * f) (x * f) = arctan2 y x.
Proof.
  intros Hf. unfold arctan2.
  repeat match goal with
         | |- context [Rlt_dec ?a ?b] => destruct (Rlt_dec a b)
         | |- context [Rle_dec ?a ?b] => destruct (Rle_dec a b)
         end; try nra; try reflexivity.
  all: replace (y * f / (x * f)) with (y / x) by (field; lra); reflexivity.
Qed.

Lemma angle_scale_origin (x y f : R) :
  0 < f →
  coordinates_angle_from_x (0, 0) (x * f, y * f) = coordinates_angle_from_x (0, 0) (x, y).
Proof.
  intros Hf. unfold coordinates_angle_from_x, coordinates_to_centre. simpl.
  replace (y * f - 0) with ((y - 0) * f) by ring.
  replace (x * f - 0) with ((x - 0) * f) by ring.
  by rewrite arctan2_scale.
Qed.

(** About the origin and with a positive border radius at the angle of the
    coordinate, relocating twice is relocating once. *)
Lemma relocated_idempotent_origin border c :
  border_centre border = (0, 0) →
  0 < border_radius_at_theta border (coordinates_angle_from_x (0, 0) c) →
  relocated_coordinate border (relocated_coordinate border c) = relocated_coordinate border c.
Proof.
  intros Hc Hpos.
  destruct (Rle_dec (coordinates_to_radius (border_centre border) c)
              (border_radius_at_theta border
                 (coordinates_angle_from_x (border_centre border) c))) as [Hin|Hout].
  - by rewrite !(relocated_within border c).
  - apply relocated_within. unfold within_border. rewrite Hc.
    rewrite relocated_radius_origin by (done || lra).
    unfold relocated_coordinate. rewrite move_factor_outside by done. rewrite Hc in *.
    destruct c as [x y]. cbn [fst snd].
    rewrite angle_scale_origin; [lra|].
    apply Rdiv_lt_0_compat; [done|]. lra.
Qed.

Lemma offset_border_radius theta : border_radius_at_theta offset_border theta = 1.
Proof. apply polyval_constant_one. Qed.

Lemma offset_border_relocates_12 : relocated_coordinate offset_border (12, 0) = (6, 0).
Proof.
  unfold relocated_coordinate, move_factor. rewrite offset_border_radius.
  assert (coordinates_to_radius (border_centre offset_border) (12, 0) = 2) as ->
    by (apply sqrt_is; simpl; lra).
  destruct (Rgt_dec 2 1); [|lra]. simpl. f_equal; lra.
Qed.

Lemma offset_border_relocates_6 : relocated_coordinate offset_border (6, 0) = (3 / 2, 0).
Proof.
  unfold relocated_coordinate, move_factor. rewrite offset_border_radius.
  assert (coordinates_to_radius (border_centre offset_border) (6, 0) = 4) as ->
    by (apply sqrt_is; simpl; lra).
  destruct (Rgt_dec 4 1); [|lra]. simpl. f_equal; lra.
Qed.

(** C7 (defect).  The border fitted to four points at distance 1 from the
    centre (10, 0) has radius 1 at every angle; the coordinate (12, 0), at
    radius 2, is relocated to (6, 0), at radius 4 from the centre:
    [relocated_coordinate] scales the coordinate about the origin, not about
    the centre the radius and the angle are measured from. *)
Theorem relocated_coordinate_offset_centre :
  fitted offset_border 1 ∧
  ¬ within_border offset_border (12, 0) ∧
  relocated_coordinate offset_border (12, 0) = (6, 0) ∧
  coordinates_to_radius (border_centre offset_border)
    (relocated_coordinate offset_border (12, 0)) = 4 ∧
  border_radius_at_theta offset_border
    (coordinates_angle_from_x (border_centre offset_border) (12, 0)) = 1.
Proof.
  split; [exact offset_border_fitted|]. split; [|split; [|split]].
  - unfold within_border. rewrite offset_border_radius.
    assert (coordinates_to_radius (border_centre offset_border) (12, 0) = 2) as ->
      by (apply sqrt_is; simpl; lra).
    lra.
  - exact offset_border_relocates_12.
  - rewrite offset_border_relocates_12. apply sqrt_is; simpl; lra.
  - apply offset_border_radius.
Qed.

(** C8 (defect).  With the same border, relocating (12, 0) gives (6, 0) and
    relocating (6, 0) gives (3/2, 0): relocation about a centre other than
    the origin is not idempotent. *)
Theorem relocated_coordinate_not_idempotent :
  fitted offset_border 1 ∧
  relocated_coordinate offset_border (12, 0) = (6, 0) ∧
  relocated_coordinate offset_border (relocated_coordinate offset_border (12, 0)) = (3 / 2, 0) ∧
  relocated_coordinate offset_border (relocated_coordinate offset_border (12, 0))
  ≠ relocated_coordinate offset_border (12, 0).
Proof.
  split; [exact offset_border_fitted|]. split; [exact offset_border_relocates_12|].
  rewrite offset_border_relocates_12, offset_border_relocates_6.
  split; [done|]. intros Heq. injection Heq as Heq. lra.
Qed.

(** C9, as stated, fails: the call returns [None] and the source plane then
    stores (1, 0) where it stored (2, 0). *)
Lemma relocate_overwrites_coordinates :
  fitted unit_border 1 ∧
  relocate_coordinates_outside_border example_source_plane unit_border
  = (tt, {| centre := (0, 0); coordinates := [(1, 0); (0, 1 / 2)] |}) ∧
  coordinates (relocate_coordinates_outside_border example_source_plane unit_border).2
  ≠ coordinates example_source_plane.
Proof.
  assert (relocated_coordinate unit_border (2, 0) = (1, 0)) as H1.
  { unfold relocated_coordinate, move_factor, border_radius_at_theta.
    cbn [polynomial unit_border]. rewrite polyval_constant_one.
    assert (coordinates_to_radius (border_centre unit_border) (2, 0) = 2) as ->
      by (apply sqrt_is; simpl; lra).
    destruct (Rgt_dec 2 1); [|lra]. simpl. f_equal; lra. }
  assert (relocated_coordinate unit_border (0, 1 / 2) = (0, 1 / 2)) as H2.
  { apply relocated_within. unfold within_border, border_radius_at_theta.
    cbn [polynomial unit_border]. rewrite polyval_constant_one.
    assert (coordinates_to_radius (border_centre unit_border) (0, 1 / 2) = 1 / 2) as ->
      by (apply sqrt_is; simpl; lra).
    lra. }
  split; [exact unit_border_fitted|].
  unfold relocate_coordinates_outside_border, example_source_plane. simpl.
  rewrite H1, H2. split; [done|].
  intros Heq. injection Heq as Heq. lra.
Qed.

(** C9 (amended).  [relocate_coordinates_outside_border] returns [None] and
    leaves a source plane with the same centre whose stored sequence is, in
    order, the relocation of each stored coordinate; the sequence is unchanged
    when every stored coordinate is within the border. *)
Theorem relocate_coordinates_outside_border_effect (self : SourcePlane)
    (border : SourcePlaneBorder) :
  (relocate_coordinates_outside_border self border).1 = tt ∧
  centre (relocate_coordinates_outside_border self border).2 = centre self ∧
  length (coordinates (relocate_coordinates_outside_border self border).2)
  = length (coordinates self) ∧
  (∀ i, coordinates (relocate_coordinates_outside_border self border).2 !! i
        = relocated_coordinate border <$> coordinates self !! i) ∧
  (Forall (within_border border) (coordinates self) →
   coordinates (relocate_coordinates_outside_border self border).2 = coordinates self).
Proof.
  unfold relocate_coordinates_outside_border. simpl.
  split; [done|]. split; [done|]. split; [by rewrite length_fmap|]. split.
  - intros i. by rewrite list_lookup_fmap.
  - induction 1 as [|c cs Hc _ IH]; simpl; [done|].
    rewrite relocated_within by done. f_equal. exact IH.
Qed.

Lemma relocate_coordinates_outside_border_effect_witness :
  Forall (within_border unit_border) (coordinates inner_source_plane) ∧
  coordinates (relocate_coordinates_outside_border inner_source_plane unit_border).2
  = coordinates inner_source_plane.
Proof.
  assert (Forall (within_border unit_border) (coordinates inner_source_plane)) as Hin.
  { apply Forall_cons; split; [|apply Forall_nil_2].
    unfold within_border, border_radius_at_theta. cbn [polynomial unit_border].
    rewrite polyval_constant_one.
    assert (coordinates_to_radius (border_centre unit_border) (0, 1 / 2) = 1 / 2) as ->
      by (apply sqrt_is; simpl; lra).
    lra. }
  split; [exact Hin|].
  exact (proj2 (proj2 (proj2 (proj2
    (relocate_coordinates_outside_border_effect inner_source_plane unit_border)))) Hin).
Defined.

(** * Part III: further properties of the code *)

Close Scope R_scope.
Open Scope Q_scope.

(** ** Loops that raise *)

Lemma for_each_raises {A S} (body : S → A → outcome S) xs x ys s s' e :
  for_each body xs s = Returns s' → body s' x = Raises e →
  for_each body (xs ++ x :: ys) s = Raises e.
Proof.
  intros Hxs Hx. rewrite for_each_app, Hxs. simpl. by rewrite Hx.
Qed.

Lemma for_each_ext {A S} (body body' : S → A → outcome S) xs s :
  (∀ s x, x ∈ xs → body s x = body' s x) →
  for_each body xs s = for_each body' xs s.
Proof.
  revert s. induction xs as [|x xs IH]; intros s H; simpl; [done|].
  rewrite H by apply list_elem_of_here.
  destruct (body' s x); simpl; try done.
  apply IH. intros s0 y Hy. apply H. by apply list_elem_of_further.
Qed.

Lemma map_each_inv {A B} (f : A → outcome B) xs ys :
  map_each f xs = Returns ys → Forall2 (λ x y, f x = Returns y) xs ys.
Proof.
  revert ys. induction xs as [|x xs IH]; intros ys H; simpl in H.
  - injection H as <-. constructor.
  - destruct (f x) as [y| |] eqn:Hy; simpl in H; try done.
    destruct (map_each f xs) as [ys'| |]; simpl in H; try done.
    injection H as <-. constructor; [done|]. by apply IH.
Qed.

Lemma map_each_raises {A B} (f : A → outcome B) xs x ys e :
  (∀ y, y ∈ xs → ∃ b, f y = Returns b) → f x = Raises e →
  map_each f (xs ++ x :: ys) = Raises e.
Proof.
  induction xs as [|y xs IH]; intros Hxs Hx; simpl.
  - by rewrite Hx.
  - destruct (Hxs y) as [b Hb]; [apply list_elem_of_here|]. rewrite Hb. simpl.
    rewrite IH; [done| |done]. intros z Hz. apply Hxs. by apply list_elem_of_further.
Qed.

(** ** MappingMatrix: errors and surplus assignments *)

Lemma in_range_upto_S K P cl im n :
  in_range_upto K P cl im (S n) ↔
  in_range_upto K P cl im n ∧
  ∃ r c, cl !! n = Some r ∧ im !! n = Some c ∧ (r < K)%nat ∧ (c < P)%nat.
Proof.
  split.
  - intros H. split; [intros i Hi; apply H; lia|apply H; lia].
  - intros [H Hn] i Hi. destruct (decide (i = n)) as [->|]; [done|]. apply H. lia.
Qed.

(** The loop either runs through, exactly when the first [n] assignments are
    in range, or raises [IndexError]. *)
Lemma mapping_loop_dichotomy K P (cl im : list nat) frac n :
  (in_range_upto K P cl im n ∧
   ∃ M, for_each (λ obj i, r ←! index cl i; c ←! index im i; add_at obj r c frac)
          (seq 0 n) (zeros K P) = Returns M ∧ has_shape K P M)
  ∨ (¬ in_range_upto K P cl im n ∧
     for_each (λ obj i, r ←! index cl i; c ←! index im i; add_at obj r c frac)
       (seq 0 n) (zeros K P) = Raises IndexError).
Proof.
  induction n as [|n [[Hr (M & Hrun & Hs)]|[Hr Hrun]]].
  - left. split; [intros i Hi; lia|]. exists (zeros K P). split; [done|apply zeros_shape].
  - rewrite seq_S, for_each_app, Hrun. simpl. unfold index.
    destruct (cl !! n) as [r|] eqn:Hcl; simpl.
    2:{ right. split; [|done]. rewrite in_range_upto_S.
        intros [_ (r & c & ? & _)]. congruence. }
    destruct (im !! n) as [c|] eqn:Him; simpl.
    2:{ right. split; [|done]. rewrite in_range_upto_S.
        intros [_ (r' & c & _ & ? & _)]. congruence. }
    destruct (lt_dec r K) as [HrK|HrK], (lt_dec c P) as [HcP|HcP].
    + left. split; [rewrite in_range_upto_S; split; [done|]; by exists r, c|].
      destruct (add_at_spec K P M r c frac Hs HrK HcP) as (M' & -> & Hs' & _).
      by exists M'.
    + right. split.
      * rewrite in_range_upto_S. intros [_ (r' & c' & ? & ? & ? & ?)]. simplify_eq. lia.
      * rewrite (add_at_out_of_range K P) by (done || lia). done.
    + right. split.
      * rewrite in_range_upto_S. intros [_ (r' & c' & ? & ? & ? & ?)]. simplify_eq. lia.
      * rewrite (add_at_out_of_range K P) by (done || lia). done.
    + right. split.
      * rewrite in_range_upto_S. intros [_ (r' & c' & ? & ? & ? & ?)]. simplify_eq. lia.
      * rewrite (add_at_out_of_range K P) by (done || lia). done.
  - right. split; [rewrite in_range_upto_S; tauto|].
    rewrite seq_S, for_each_app, Hrun. done.
Qed.

(** X1.  For a sub-grid size of at least 1, [MappingMatrix] returns a
    [K x P] matrix exactly when each of the first [P * s^2] sub-pixels has a
    cluster index below [K] and an image-pixel index below [P]; in every
    other case (an assignment array too short, an index out of range) it
    raises [IndexError]. *)
Theorem MappingMatrix_returns_or_raises K P s (cl im : list nat) :
  (1 ≤ s)%nat →
  (in_range_upto K P cl im (P * s ^ 2) ∧
   ∃ M, MappingMatrix K P s cl im = Returns M ∧ has_shape K P M)
  ∨ (¬ in_range_upto K P cl im (P * s ^ 2) ∧
     MappingMatrix K P s cl im = Raises IndexError).
Proof.
  intros Hs. unfold MappingMatrix.
  destruct (Nat.eqb_spec s 0) as [?|_]; [lia|].
  apply mapping_loop_dichotomy.
Qed.

Lemma MappingMatrix_returns_or_raises_witness :
  (in_range_upto 2 1 [0; 2]%nat [0; 0]%nat (1 * 1 ^ 2) ∧
   ∃ M, MappingMatrix 2 1 1 [0; 2]%nat [0; 0]%nat = Returns M ∧ has_shape 2 1 M)
  ∨ (¬ in_range_upto 2 1 [0; 2]%nat [0; 0]%nat (1 * 1 ^ 2) ∧
     MappingMatrix 2 1 1 [0; 2]%nat [0; 0]%nat = Raises IndexError).
Proof. apply (MappingMatrix_returns_or_raises 2 1 1 [0; 2]%nat [0; 0]%nat). lia. Defined.

(** X2.  [MappingMatrix] reads only the first [P * s^2] entries of the two
    assignment arrays: longer arrays give the same result as their prefixes. *)
Theorem MappingMatrix_ignores_surplus K P s (cl im : list nat) :
  MappingMatrix K P s cl im
  = MappingMatrix K P s (take (P * s ^ 2) cl) (take (P * s ^ 2) im).
Proof.
  unfold MappingMatrix. destruct (s =? 0)%nat; [done|].
  apply for_each_ext. intros M i Hi. apply elem_of_seq in Hi.
  unfold index. by rewrite !lookup_take_lt by lia.
Qed.

(** ** RegularizationMatrix: rows, isolated pixels, errors *)

Lemma Qsum_cell_row d i x y v :
  (y < d)%nat →
  Qsum d (λ c, ind ((i =? x)%nat && (c =? y)%nat) v) == ind (i =? x)%nat v.
Proof.
  intros Hy. destruct (i =? x)%nat; simpl.
  - rewrite (Qsum_ind d y (λ _, v)). by rewrite (proj2 (Nat.ltb_lt y d)).
  - apply Qsum_zero. reflexivity.
Qed.

(** The updates of the pairs take from row [i] what the neighbour count of
    [i] puts on its diagonal. *)
Lemma pairs_update_row rw d ps i :
  ordered_pairs d ps →
  Qsum d (λ c, pairs_update rw ps i c) == - (nat_to_Q (pairs_containing ps i) * rw i).
Proof.
  induction 1 as [|[a b] ps [Hab Hb] _ IH]; simpl in *.
  - rewrite Qsum_zero by reflexivity. unfold pairs_containing, nat_to_Q. simpl. ring.
  - rewrite Qsum_plus, IH, pairs_containing_cons by done.
    unfold pair_update. rewrite !Qsum_plus, !Qsum_cell_row by lia.
    unfold ind. eqb_cases; try lia; ring.
Qed.

Lemma pairs_update_isolated rw ps i c :
  Forall (λ p, p.1 ≠ i ∧ p.2 ≠ i) ps → pairs_update rw ps i c == 0.
Proof.
  induction 1 as [|[a b] ps [Ha Hb] _ IH]; simpl in *; [reflexivity|].
  rewrite IH. unfold pair_update, ind. eqb_cases; try done; ring.
Qed.

(** X3.  With neighbour counts that agree with the pair list (pairs
    [(i, j)] with [i < j < d]), every row of the matrix [make_via_pairs]
    builds sums to zero, whatever the weights: the matrix maps the constant
    vector to zero. *)
Theorem make_via_pairs_rows_sum_to_zero d (w : list Q) (nv : list nat)
    (pairs : list (nat * nat)) :
  (d ≤ length w)%nat → ordered_pairs d pairs →
  (∀ i, (i < d)%nat → nv !! i = Some (pairs_containing pairs i)) →
  ∃ H, make_via_pairs d w nv pairs = Returns H ∧
       ∀ i, (i < d)%nat → Qsum d (λ c, entry H i c) == 0.
Proof.
  intros Hw Ho Hcount.
  assert (d ≤ length nv)%nat as Hnv.
  { destruct d as [|d]; [lia|].
    pose proof (lookup_lt_Some nv d _ (Hcount d ltac:(lia))). lia. }
  assert (Forall (λ p, (p.1 < d)%nat ∧ (p.2 < d)%nat) pairs) as Hp.
  { eapply Forall_impl; [exact Ho|]. intros p [? ?]. simpl. lia. }
  destruct (make_via_pairs_entries d w nv Hw Hnv pairs Hp) as (H & Hrun & _ & HH).
  exists H. split; [exact Hrun|]. intros i Hi.
  rewrite (Qsum_ext d _ _ (λ c _, HH i c Hi)).
  rewrite Qsum_plus, (pairs_update_row _ d) by done.
  rewrite (Qsum_ext d _ (λ c, ind (c =? i)%nat (nat_to_Q (count_at nv i) * weight_sq w i))).
  2:{ intros c _. by rewrite Nat.eqb_sym. }
  rewrite Qsum_ind, (proj2 (Nat.ltb_lt i d)) by done.
  unfold count_at. rewrite (Hcount i Hi). simpl. ring.
Qed.

Lemma make_via_pairs_rows_sum_to_zero_witness :
  ∃ H, make_via_pairs 3 [1; 2; 3] [1; 2; 1]%nat [(0, 1); (1, 2)]%nat = Returns H ∧
       ∀ i, (i < 3)%nat → Qsum 3 (λ c, entry H i c) == 0.
Proof.
  apply (make_via_pairs_rows_sum_to_zero 3 [1; 2; 3] [1; 2; 1]%nat [(0, 1); (1, 2)]%nat).
  - simpl. lia.
  - repeat constructor; simpl; lia.
  - intros [|[|[|i]]] Hi; try reflexivity; lia.
Defined.

(** X4.  A pixel with a neighbour count of zero that appears in no pair has
    a zero row and a zero column in the matrix [make_via_pairs] builds. *)
Theorem make_via_pairs_isolated_pixel d (w : list Q) (nv : list nat)
    (pairs : list (nat * nat)) i :
  (d ≤ length w)%nat → (d ≤ length nv)%nat →
  Forall (λ p, (p.1 < d)%nat ∧ (p.2 < d)%nat) pairs →
  (i < d)%nat → nv !! i = Some O → Forall (λ p, p.1 ≠ i ∧ p.2 ≠ i) pairs →
  ∃ H, make_via_pairs d w nv pairs = Returns H ∧
       ∀ c, (c < d)%nat → entry H i c == 0 ∧ entry H c i == 0.
Proof.
  intros Hw Hnv Hp Hi Hzero Hiso.
  destruct (make_via_pairs_entries d w nv Hw Hnv pairs Hp) as (H & Hrun & _ & HH).
  exists H. split; [exact Hrun|]. intros c Hc.
  rewrite !HH by done. rewrite (pairs_update_sym _ _ c i).
  rewrite !pairs_update_isolated by done.
  unfold count_at. rewrite Hzero. simpl.
  destruct (Nat.eqb_spec i c) as [->|Hne].
  - rewrite Hzero, Nat.eqb_refl. unfold ind, nat_to_Q. simpl. split; ring.
  - rewrite (proj2 (Nat.eqb_neq c i)) by lia. unfold ind. split; ring.
Qed.

Lemma make_via_pairs_isolated_pixel_witness :
  ∃ H, make_via_pairs 3 [1; 2; 3] [1; 1; 0]%nat [(0, 1)]%nat = Returns H ∧
       ∀ c, (c < 3)%nat → entry H 2 c == 0 ∧ entry H c 2 == 0.
Proof.
  apply (make_via_pairs_isolated_pixel 3 [1; 2; 3] [1; 1; 0]%nat [(0, 1)]%nat 2).
  - simpl. lia.
  - simpl. lia.
  - repeat constructor; simpl; lia.
  - lia.
  - reflexivity.
  - repeat constructor; simpl; lia.
Defined.

Lemma index_raises {A} (l : list A) i e : index l i = Raises e → e = IndexError.
Proof. unfold index. destruct (l !! i); congruence. Qed.

Lemma index_cases {A} (l : list A) i :
  (∃ a, l !! i = Some a ∧ index l i = Returns a)
  ∨ (l !! i = None ∧ index l i = Raises IndexError).
Proof. unfold index. destruct (l !! i) as [a|]; [left; by exists a|by right]. Qed.

Lemma diagonal_loop_dichotomy d (w : list Q) (nv : list nat) n :
  (n ≤ d)%nat →
  ((n ≤ length w)%nat ∧ (n ≤ length nv)%nat ∧
   ∃ M, for_each (λ matrix i,
            n ←! index nv i; w ←! index ((λ w, w ^ 2) <$> w) i;
            add_at matrix i i (nat_to_Q n * w)) (seq 0 n) (zeros d d) = Returns M
        ∧ has_shape d d M)
  ∨ (¬ ((n ≤ length w)%nat ∧ (n ≤ length nv)%nat) ∧
     for_each (λ matrix i,
         n ←! index nv i; w ←! index ((λ w, w ^ 2) <$> w) i;
         add_at matrix i i (nat_to_Q n * w)) (seq 0 n) (zeros d d) = Raises IndexError).
Proof.
  induction n as [|n IH]; intros Hn.
  - left. split; [lia|split; [lia|]]. exists (zeros d d). split; [done|apply zeros_shape].
  - destruct IH as [(Hw & Hnv & M & Hrun & Hs)|[Hbad Hrun]]; [lia| |].
    + rewrite seq_S, Nat.add_0_l, for_each_app, Hrun. cbn [obind for_each].
      destruct (index_cases nv n) as [(k & Hk & ->)|[Hk ->]]; cbn [obind].
      2:{ right. split; [|done]. apply lookup_ge_None in Hk. lia. }
      destruct (index_cases ((λ w, w ^ 2) <$> w) n) as [(x & Hx & ->)|[Hx ->]]; cbn [obind].
      2:{ right. split; [|done]. apply lookup_ge_None in Hx.
          rewrite length_fmap in Hx. lia. }
      apply lookup_lt_Some in Hk, Hx. rewrite length_fmap in Hx.
      destruct (add_at_spec d d M n n (nat_to_Q k * x) Hs) as (M' & -> & Hs' & _);
        [lia|lia|].
      left. split; [lia|split; [lia|]]. by exists M'.
    + right. split; [lia|]. rewrite seq_S, for_each_app, Hrun. done.
Qed.

Lemma pairs_loop_dichotomy d (w : list Q) pairs :
  (d ≤ length w)%nat → ∀ M0, has_shape d d M0 →
  (Forall (λ p, (p.1 < d)%nat ∧ (p.2 < d)%nat) pairs ∧
   ∃ M, for_each (λ matrix pair,
             let p0 := pair.1 in
             let p1 := pair.2 in
             w1 ←! index ((λ w, w ^ 2) <$> w) p1; matrix ←! add_at matrix p0 p0 w1;
             w0 ←! index ((λ w, w ^ 2) <$> w) p0; matrix ←! add_at matrix p1 p1 w0;
             w0 ←! index ((λ w, w ^ 2) <$> w) p0; matrix ←! sub_at matrix p0 p1 w0;
             w0 ←! index ((λ w, w ^ 2) <$> w) p0; matrix ←! sub_at matrix p1 p0 w0;
             w1 ←! index ((λ w, w ^ 2) <$> w) p1; matrix ←! sub_at matrix p0 p1 w1;
             w1 ←! index ((λ w, w ^ 2) <$> w) p1; sub_at matrix p1 p0 w1)
           pairs M0 = Returns M ∧ has_shape d d M)
  ∨ (¬ Forall (λ p, (p.1 < d)%nat ∧ (p.2 < d)%nat) pairs ∧
     for_each (λ matrix pair,
         let p0 := pair.1 in
         let p1 := pair.2 in
         w1 ←! index ((λ w, w ^ 2) <$> w) p1; matrix ←! add_at matrix p0 p0 w1;
         w0 ←! index ((λ w, w ^ 2) <$> w) p0; matrix ←! add_at matrix p1 p1 w0;
         w0 ←! index ((λ w, w ^ 2) <$> w) p0; matrix ←! sub_at matrix p0 p1 w0;
         w0 ←! index ((λ w, w ^ 2) <$> w) p0; matrix ←! sub_at matrix p1 p0 w0;
         w1 ←! index ((λ w, w ^ 2) <$> w) p1; matrix ←! sub_at matrix p0 p1 w1;
         w1 ←! index ((λ w, w ^ 2) <$> w) p1; sub_at matrix p1 p0 w1)
       pairs M0 = Raises IndexError).
Proof.
  intros Hw. induction pairs as [|[a b] ps IH]; intros M0 Hs.
  - left. split; [constructor|]. by exists M0.
  - destruct (lt_dec a d) as [Ha|Ha], (lt_dec b d) as [Hb|Hb].
    + destruct (pairs_loop d w Hw [(a, b)] M0 Hs) as (M1 & Hrun1 & Hs1 & _).
      { by repeat constructor. }
      change ((a, b) :: ps) with ([(a, b)] ++ ps). rewrite for_each_app, Hrun1. simpl.
      destruct (IH M1 Hs1) as [(Hps & M & Hrun & HsM)|[Hps Hrun]].
      * left. split; [by constructor|]. by exists M.
      * right. split; [|done]. intros Hall. apply Hps. by inversion Hall.
    + right. split; [intros Hall; inversion Hall; simpl in *; lia|].
      cbn [for_each obind fst snd].
      destruct (index_cases ((λ w, w ^ 2) <$> w) b) as [(w1 & _ & ->)|[_ ->]];
        cbn [obind]; [|done].
      destruct (add_at_spec d d M0 a a w1 Hs Ha Ha) as (M1 & -> & Hs1 & _). cbn [obind].
      rewrite (reg_weight_index d w Hw) by done. cbn [obind].
      rewrite (add_at_out_of_range d d) by (done || lia). done.
    + right. split; [intros Hall; inversion Hall; simpl in *; lia|].
      cbn [for_each obind fst snd].
      destruct (index_cases ((λ w, w ^ 2) <$> w) b) as [(w1 & _ & ->)|[_ ->]];
        cbn [obind]; [|done].
      rewrite (add_at_out_of_range d d) by (done || lia). done.
    + right. split; [intros Hall; inversion Hall; simpl in *; lia|].
      cbn [for_each obind fst snd].
      destruct (index_cases ((λ w, w ^ 2) <$> w) b) as [(w1 & _ & ->)|[_ ->]];
        cbn [obind]; [|done].
      rewrite (add_at_out_of_range d d) by (done || lia). done.
Qed.

(** X5.  [make_via_pairs] returns a [d x d] matrix exactly when the weights
    and the neighbour counts have at least [d] entries and every pair index
    is below [d]; in every other case it raises [IndexError]. *)
Theorem make_via_pairs_returns_or_raises d (w : list Q) (nv : list nat)
    (pairs : list (nat * nat)) :
  (((d ≤ length w)%nat ∧ (d ≤ length nv)%nat ∧
    Forall (λ p, (p.1 < d)%nat ∧ (p.2 < d)%nat) pairs) ∧
   ∃ H, make_via_pairs d w nv pairs = Returns H ∧ has_shape d d H)
  ∨ (¬ ((d ≤ length w)%nat ∧ (d ≤ length nv)%nat ∧
        Forall (λ p, (p.1 < d)%nat ∧ (p.2 < d)%nat) pairs) ∧
     make_via_pairs d w nv pairs = Raises IndexError).
Proof.
  unfold make_via_pairs.
  destruct (diagonal_loop_dichotomy d w nv d) as [(Hw & Hnv & M1 & -> & Hs1)|[Hbad ->]];
    [lia| |].
  - simpl. destruct (pairs_loop_dichotomy d w pairs Hw M1 Hs1)
      as [(Hp & M & Hrun & HsM)|[Hp Hrun]].
    + left. split; [done|]. by exists M.
    + right. split; [tauto|done].
  - right. split; [tauto|done].
Qed.

(** ** Voronoi: the neighbour lists *)

Lemma append_neighbor_spec (nb : list (list nat)) a b :
  (a < length nb)%nat →
  ∃ nb', append_neighbor nb a b = Returns nb' ∧ length nb' = length nb ∧
         ∀ i, neighbors_of nb' i = neighbors_of nb i ++ (if (a =? i)%nat then [b] else []).
Proof.
  intros Ha. destruct (lookup_lt_is_Some_2 nb a Ha) as [l Hl].
  exists (<[a := l ++ [b]]> nb). split; [|split].
  - unfold append_neighbor. by rewrite (index_Returns _ _ _ Hl).
  - by rewrite length_insert.
  - intros i. unfold neighbors_of. destruct (Nat.eqb_spec a i) as [<-|Hne].
    + by rewrite list_lookup_insert_eq, Hl by done.
    + rewrite list_lookup_insert_ne by done. by rewrite app_nil_r.
Qed.

Lemma append_neighbor_out_of_range (nb : list (list nat)) a b :
  (length nb ≤ a)%nat → append_neighbor nb a b = Raises IndexError.
Proof.
  intros Ha. unfold append_neighbor, index. by rewrite (lookup_ge_None_2 nb a Ha).
Qed.

(** The loop over the ridges either runs through, exactly when every ridge
    index is in range, or raises [IndexError]. *)
Lemma voronoi_loop ridges : ∀ nb0 : list (list nat),
  (Forall (λ p, (p.1 < length nb0)%nat ∧ (p.2 < length nb0)%nat) ridges ∧
   ∃ nb, for_each (λ neighbors pair,
             neighbors ←! append_neighbor neighbors pair.1 pair.2;
             append_neighbor neighbors pair.2 pair.1) ridges nb0 = Returns nb
         ∧ length nb = length nb0
         ∧ ∀ i, neighbors_of nb i = neighbors_of nb0 i ++ ridge_contributions ridges i)
  ∨ (¬ Forall (λ p, (p.1 < length nb0)%nat ∧ (p.2 < length nb0)%nat) ridges ∧
     for_each (λ neighbors pair,
         neighbors ←! append_neighbor neighbors pair.1 pair.2;
         append_neighbor neighbors pair.2 pair.1) ridges nb0 = Raises IndexError).
Proof.
  induction ridges as [|[a b] ps IH]; intros nb0.
  - left. split; [constructor|]. exists nb0. split; [done|split; [done|]].
    intros i. simpl. by rewrite app_nil_r.
  - cbn [for_each fst snd].
    destruct (lt_dec a (length nb0)) as [Ha|Ha].
    2:{ right. split; [intros Hall; inversion Hall; simpl in *; lia|].
        rewrite append_neighbor_out_of_range by lia. done. }
    destruct (append_neighbor_spec nb0 a b Ha) as (nb1 & -> & Hlen1 & Hnb1). cbn [obind].
    destruct (lt_dec b (length nb0)) as [Hb|Hb].
    2:{ right. split; [intros Hall; inversion Hall; simpl in *; lia|].
        rewrite append_neighbor_out_of_range by lia. done. }
    destruct (append_neighbor_spec nb1 b a) as (nb2 & -> & Hlen2 & Hnb2); [lia|]. cbn [obind].
    destruct (IH nb2) as [(Hps & nb & Hrun & Hlen & Hnb)|[Hps Hrun]].
    + left. split.
      { constructor; [done|]. by rewrite Hlen2, Hlen1 in Hps. }
      exists nb. split; [done|split; [lia|]].
      intros i. rewrite Hnb, Hnb2, Hnb1. simpl. by rewrite <- !app_assoc.
    + right. split; [|done]. intros Hall. apply Hps. inversion Hall.
      by rewrite Hlen2, Hlen1.
Qed.

Lemma neighbors_of_replicate n i : neighbors_of (replicate n []) i = [].
Proof.
  unfold neighbors_of. destruct (replicate n [] !! i) as [l|] eqn:E; [|done].
  by apply lookup_replicate in E as [-> _].
Qed.

Lemma elem_of_optional_singleton (c : bool) (x y : nat) :
  x ∈ (if c then [y] else []) ↔ c = true ∧ x = y.
Proof.
  destruct c; [rewrite elem_of_cons, elem_of_nil|rewrite elem_of_nil]; intuition congruence.
Qed.

Lemma elem_of_ridge_contributions ridges i j :
  j ∈ ridge_contributions ridges i ↔ (i, j) ∈ ridges ∨ (j, i) ∈ ridges.
Proof.
  induction ridges as [|[a b] ps IH]; simpl.
  - rewrite !elem_of_nil. tauto.
  - rewrite !elem_of_app, IH, !elem_of_cons, !elem_of_optional_singleton,
      !Nat.eqb_eq, !pair_equal_spec.
    intuition congruence.
Qed.

Lemma length_ridge_contributions ridges i :
  Forall (λ p, p.1 ≠ p.2) ridges →
  length (ridge_contributions ridges i) = pairs_containing ridges i.
Proof.
  unfold pairs_containing.
  induction 1 as [|[a b] ps Hab _ IH]; simpl in *; [done|].
  rewrite !length_app, IH.
  destruct (Nat.eqb_spec a i), (Nat.eqb_spec b i); subst; simpl; lia.
Qed.

Lemma pairs_containing_reverse ridges i :
  pairs_containing (reverse ridges) i = pairs_containing ridges i.
Proof.
  unfold pairs_containing. induction ridges as [|p ps IH]; [done|].
  rewrite reverse_cons, List.filter_app, length_app, IH. simpl.
  destruct (_ || _); simpl; lia.
Qed.

Lemma Forall_reverse_iff {A} (P : A → Prop) (l : list A) :
  Forall P (reverse l) ↔ Forall P l.
Proof.
  rewrite !Forall_forall. split; intros H x Hx; apply H; by apply elem_of_reverse.
Qed.

(** What [Voronoi_neighbors] returns for in-range ridges. *)
Lemma Voronoi_neighbors_lists n ridges :
  Forall (λ p, (p.1 < n)%nat ∧ (p.2 < n)%nat) ridges →
  ∃ nb, Voronoi_neighbors n ridges = Returns nb ∧ length nb = n ∧
        ∀ i, neighbors_of nb i = ridge_contributions (reverse ridges) i.
Proof.
  intros Hr. unfold Voronoi_neighbors.
  destruct (voronoi_loop (reverse ridges) (replicate n []))
    as [(_ & nb & Hrun & Hlen & Hnb)|[Hbad _]].
  - exists nb. split; [done|]. rewrite length_replicate in Hlen. split; [done|].
    intros i. by rewrite Hnb, neighbors_of_replicate.
  - destruct Hbad. rewrite length_replicate. by apply Forall_reverse_iff.
Qed.

(** X6.  For ridge points whose indices are below the number of cluster
    centres, [Voronoi.__init__] builds one neighbour list per centre; [j] is
    in the list of [i] exactly when [(i, j)] or [(j, i)] is a ridge, so the
    lists are symmetric. *)
Theorem Voronoi_neighbors_adjacency n (ridges : list (nat * nat)) :
  Forall (λ p, (p.1 < n)%nat ∧ (p.2 < n)%nat) ridges →
  ∃ nb, Voronoi_neighbors n ridges = Returns nb ∧ length nb = n ∧
        (∀ i j, j ∈ neighbors_of nb i ↔ (i, j) ∈ ridges ∨ (j, i) ∈ ridges) ∧
        (∀ i j, j ∈ neighbors_of nb i → i ∈ neighbors_of nb j).
Proof.
  intros Hr. destruct (Voronoi_neighbors_lists n ridges Hr) as (nb & Hrun & Hlen & Hnb).
  assert (∀ i j, j ∈ neighbors_of nb i ↔ (i, j) ∈ ridges ∨ (j, i) ∈ ridges) as Hmem.
  { intros i j. by rewrite Hnb, elem_of_ridge_contributions, !elem_of_reverse. }
  exists nb. split; [done|split; [done|split; [done|]]].
  intros i j. rewrite !Hmem. tauto.
Qed.

Lemma Voronoi_neighbors_adjacency_witness :
  ∃ nb, Voronoi_neighbors 3 [(0, 1); (1, 2)]%nat = Returns nb ∧ length nb = 3%nat ∧
        (∀ i j, j ∈ neighbors_of nb i
                ↔ (i, j) ∈ [(0, 1); (1, 2)]%nat ∨ (j, i) ∈ [(0, 1); (1, 2)]%nat) ∧
        (∀ i j, j ∈ neighbors_of nb i → i ∈ neighbors_of nb j).
Proof.
  apply (Voronoi_neighbors_adjacency 3 [(0, 1); (1, 2)]%nat).
  repeat constructor; simpl; lia.
Defined.

(** X7.  [Voronoi.__init__] builds the lists exactly when every ridge index
    is below the number of cluster centres; otherwise the loop raises
    [IndexError]. *)
Theorem Voronoi_neighbors_returns_or_raises n (ridges : list (nat * nat)) :
  (Forall (λ p, (p.1 < n)%nat ∧ (p.2 < n)%nat) ridges ∧
   ∃ nb, Voronoi_neighbors n ridges = Returns nb ∧ length nb = n)
  ∨ (¬ Forall (λ p, (p.1 < n)%nat ∧ (p.2 < n)%nat) ridges ∧
     Voronoi_neighbors n ridges = Raises IndexError).
Proof.
  unfold Voronoi_neighbors.
  destruct (voronoi_loop (reverse ridges) (replicate n []))
    as [(Hr & nb & Hrun & Hlen & _)|[Hbad Hrun]];
    rewrite length_replicate, ?Forall_reverse_iff in *.
  - left. split; [done|]. by exists nb.
  - by right.
Qed.

(** X8.  For in-range ridges that each join two different centres, the
    neighbour totals [Voronoi.__init__] records are, for every centre, the
    number of ridges that contain it. *)
Theorem Voronoi_neighbors_total_counts n (ridges : list (nat * nat)) :
  Forall (λ p, (p.1 < n)%nat ∧ (p.2 < n)%nat) ridges →
  Forall (λ p, p.1 ≠ p.2) ridges →
  ∃ nb, Voronoi_neighbors n ridges = Returns nb ∧
        ∀ i, (i < n)%nat →
             Voronoi_neighbors_total nb !! i = Some (pairs_containing ridges i).
Proof.
  intros Hr Hd. destruct (Voronoi_neighbors_lists n ridges Hr) as (nb & Hrun & Hlen & Hnb).
  exists nb. split; [done|]. intros i Hi.
  unfold Voronoi_neighbors_total. rewrite list_lookup_fmap.
  destruct (lookup_lt_is_Some_2 nb i) as [l Hl]; [lia|].
  rewrite Hl. simpl. f_equal.
  specialize (Hnb i). unfold neighbors_of in Hnb. rewrite Hl in Hnb. simpl in Hnb.
  rewrite Hnb, length_ridge_contributions, pairs_containing_reverse; [done|].
  by apply Forall_reverse_iff.
Qed.

Lemma Voronoi_neighbors_total_counts_witness :
  ∃ nb, Voronoi_neighbors 3 [(0, 1); (1, 2)]%nat = Returns nb ∧
        ∀ i, (i < 3)%nat →
             Voronoi_neighbors_total nb !! i = Some (pairs_containing [(0, 1); (1, 2)]%nat i).
Proof.
  apply (Voronoi_neighbors_total_counts 3 [(0, 1); (1, 2)]%nat).
  - repeat constructor; simpl; lia.
  - repeat constructor; simpl; lia.
Defined.

(** The ridges of a Voronoi diagram join two different centres, and either
    may come first: the next three lemmas ask for in-range pairs with
    different ends, in any order. *)
Lemma pairs_containing_cons_distinct a b ps i :
  a ≠ b →
  nat_to_Q (pairs_containing ((a, b) :: ps) i)
  == ind (i =? a)%nat 1 + ind (i =? b)%nat 1 + nat_to_Q (pairs_containing ps i).
Proof.
  intros Hab. unfold pairs_containing. simpl.
  rewrite (Nat.eqb_sym a i), (Nat.eqb_sym b i). unfold ind.
  destruct (Nat.eqb_spec i a), (Nat.eqb_spec i b); subst; simpl; try congruence;
    rewrite ?nat_to_Q_S; ring.
Qed.

Lemma quadratic_form_energy_distinct d x rw ps :
  Forall (λ p, (p.1 < d)%nat ∧ (p.2 < d)%nat) ps → Forall (λ p, p.1 ≠ p.2) ps →
  bilinear_sum d x (λ i j,
      ind (i =? j)%nat (nat_to_Q (pairs_containing ps i) * rw i) + pairs_update rw ps i j)
  == pairs_energy rw x ps.
Proof.
  induction ps as [|[a b] ps IH]; intros Hr Hd.
  - apply Qsum_zero. intros i _. apply Qsum_zero. intros j _.
    unfold pairs_containing, ind. simpl. destruct (i =? j)%nat; unfold nat_to_Q; simpl; ring.
  - apply Forall_cons in Hr as [[Ha Hb] Hr]. apply Forall_cons in Hd as [Hab Hd].
    simpl in Ha, Hb, Hab. simpl pairs_energy. simpl pairs_update.
    rewrite <- IH, <- (bilinear_sum_pair d x rw a b) by done.
    rewrite <- bilinear_sum_plus. apply bilinear_sum_ext. intros i j _ _.
    unfold ind at 1. destruct (Nat.eqb_spec i j) as [<-|Hij].
    + rewrite pairs_containing_cons_distinct by done.
      unfold ind. eqb_cases; ring.
    + unfold ind. eqb_cases; try congruence; ring.
Qed.

Lemma pairs_update_row_distinct rw d ps i :
  Forall (λ p, (p.1 < d)%nat ∧ (p.2 < d)%nat) ps → Forall (λ p, p.1 ≠ p.2) ps →
  Qsum d (λ c, pairs_update rw ps i c) == - (nat_to_Q (pairs_containing ps i) * rw i).
Proof.
  induction ps as [|[a b] ps IH]; intros Hr Hd.
  - simpl. rewrite Qsum_zero by reflexivity. unfold pairs_containing, nat_to_Q. simpl. ring.
  - apply Forall_cons in Hr as [[Ha Hb] Hr]. apply Forall_cons in Hd as [Hab Hd].
    simpl in Ha, Hb, Hab. simpl pairs_update.
    rewrite Qsum_plus, IH, pairs_containing_cons_distinct by done.
    unfold pair_update. rewrite !Qsum_plus, !Qsum_cell_row by done.
    unfold ind. eqb_cases; try congruence; ring.
Qed.

(** X9.  The regularization matrix built from the output of
    [Voronoi.__init__] (its neighbour totals as the neighbour counts, its
    ridge points as the pixel pairs: in-range pairs of two different centres,
    whichever comes first) is symmetric and positive semi-definite for any
    weights, and each of its rows sums to zero. *)
Theorem RegularizationMatrix_of_Voronoi d (w : list Q) (ridges : list (nat * nat)) :
  (d ≤ length w)%nat →
  Forall (λ p, (p.1 < d)%nat ∧ (p.2 < d)%nat) ridges →
  Forall (λ p, p.1 ≠ p.2) ridges →
  ∃ nb H, Voronoi_neighbors d ridges = Returns nb ∧
          RegularizationMatrix d w (Voronoi_neighbors_total nb) ridges = Returns H ∧
          (∀ i j, (i < d)%nat → (j < d)%nat → entry H i j == entry H j i) ∧
          (∀ x : list Q, 0 <= quadratic_form d H x) ∧
          (∀ i, (i < d)%nat → Qsum d (λ c, entry H i c) == 0).
Proof.
  intros Hw Hr Hd.
  destruct (Voronoi_neighbors_lists d ridges Hr) as (nb & Hrun & Hlen & Hnb).
  assert (∀ i, (i < d)%nat →
               Voronoi_neighbors_total nb !! i = Some (pairs_containing ridges i)) as Hcount.
  { intros i Hi. unfold Voronoi_neighbors_total. rewrite list_lookup_fmap.
    destruct (lookup_lt_is_Some_2 nb i) as [l Hl]; [lia|].
    rewrite Hl. simpl. f_equal.
    specialize (Hnb i). unfold neighbors_of in Hnb. rewrite Hl in Hnb. simpl in Hnb.
    rewrite Hnb, length_ridge_contributions, pairs_containing_reverse; [done|].
    by apply Forall_reverse_iff. }
  assert (d ≤ length (Voronoi_neighbors_total nb))%nat as Hnv
    by (unfold Voronoi_neighbors_total; rewrite length_fmap; lia).
  destruct (make_via_pairs_entries d w (Voronoi_neighbors_total nb) Hw Hnv ridges Hr)
    as (H & HrunH & _ & HH).
  exists nb, H. split; [done|split; [exact HrunH|split; [|split]]].
  - intros i j Hi Hj. rewrite !HH by done. rewrite (pairs_update_sym _ _ j i).
    destruct (Nat.eqb_spec i j) as [->|Hne].
    + rewrite Nat.eqb_refl. reflexivity.
    + rewrite (proj2 (Nat.eqb_neq j i)) by lia. reflexivity.
  - intros x.
    assert (quadratic_form d H x == pairs_energy (weight_sq w) (vec_at x) ridges) as ->.
    { rewrite <- (quadratic_form_energy_distinct d) by done.
      apply bilinear_sum_ext. intros i j Hi Hj. rewrite HH by done.
      unfold count_at. rewrite (Hcount i Hi). reflexivity. }
    apply pairs_energy_nonneg, weight_sq_nonneg.
  - intros i Hi.
    rewrite (Qsum_ext d _ _ (λ c _, HH i c Hi)).
    rewrite Qsum_plus, (pairs_update_row_distinct _ d) by done.
    rewrite (Qsum_ext d _ (λ c, ind (c =? i)%nat
               (nat_to_Q (count_at (Voronoi_neighbors_total nb) i) * weight_sq w i))).
    2:{ intros c _. by rewrite Nat.eqb_sym. }
    rewrite Qsum_ind, (proj2 (Nat.ltb_lt i d)) by done.
    unfold count_at. rewrite (Hcount i Hi). simpl. ring.
Qed.

Lemma RegularizationMatrix_of_Voronoi_witness :
  ∃ nb H, Voronoi_neighbors 4 [(3, 1); (3, 0); (2, 1); (2, 0); (1, 0)]%nat = Returns nb ∧
          RegularizationMatrix 4 [1; 2; 3; 4] (Voronoi_neighbors_total nb)
            [(3, 1); (3, 0); (2, 1); (2, 0); (1, 0)]%nat
          = Returns H ∧
          (∀ i j, (i < 4)%nat → (j < 4)%nat → entry H i j == entry H j i) ∧
          (∀ x : list Q, 0 <= quadratic_form 4 H x) ∧
          (∀ i, (i < 4)%nat → Qsum 4 (λ c, entry H i c) == 0).
Proof.
  apply (RegularizationMatrix_of_Voronoi 4 [1; 2; 3; 4]
           [(3, 1); (3, 0); (2, 1); (2, 0); (1, 0)]%nat).
  - simpl. lia.
  - repeat constructor; simpl; lia.
  - repeat constructor; simpl; lia.
Defined.

(** ** Cluster assignment: the exhaustive scan *)

Lemma argmin_first_minimum centers p :
  centers ≠ [] →
  argmin (compute_squared_separation p <$> centers) = Returns (nearest_index centers p) ∧
  nearest centers p (nearest_index centers p) ∧
  ∀ k, (k < nearest_index centers p)%nat →
       separation_to centers p (nearest_index centers p) < separation_to centers p k.
Proof.
  intros Hne.
  destruct (argmin_spec (compute_squared_separation p <$> centers))
    as (m & ym & Harg & Hm & Hmin & Hfirst); [by destruct centers|].
  unfold nearest_index. rewrite Harg.
  assert (m < length centers)%nat as Hlt.
  { apply lookup_lt_Some in Hm. by rewrite length_fmap in Hm. }
  rewrite separations_lookup in Hm by done. injection Hm as <-.
  split; [done|split; [split; [done|]|]].
  - intros k Hk. apply (Hmin k). by apply separations_lookup.
  - intros k Hk. apply (Hfirst k); [|done]. apply separations_lookup. lia.
Qed.

(** X10.  With at least one cluster centre,
    [sub_coordinates_to_clusters_via_nearest_neighbour] returns one index per
    sub-pixel, each the first index of a centre at minimal squared
    separation from its sub-pixel (ties go to the lowest index).  With no
    centre it raises [ValueError] as soon as there is a sub-pixel. *)
Theorem nearest_neighbour_first_minimum (subs centers : list coordinate) :
  (centers ≠ [] →
   ∃ l, sub_coordinates_to_clusters_via_nearest_neighbour subs centers = Returns l ∧
        length l = length subs ∧
        ∀ i p m, subs !! i = Some p → l !! i = Some m →
                 nearest centers p m ∧
                 ∀ k, (k < m)%nat → separation_to centers p m < separation_to centers p k)
  ∧ (centers = [] → subs ≠ [] →
     sub_coordinates_to_clusters_via_nearest_neighbour subs centers = Raises ValueError).
Proof.
  split.
  - intros Hne. exists (nearest_index centers <$> subs). split; [|split].
    + unfold sub_coordinates_to_clusters_via_nearest_neighbour.
      apply map_each_Returns. intros p _. by apply argmin_first_minimum.
    + by rewrite length_fmap.
    + intros i p m Hp Hm. rewrite list_lookup_fmap, Hp in Hm. injection Hm as <-.
      by apply argmin_first_minimum.
  - intros -> Hsubs. destruct subs as [|p subs]; [done|]. reflexivity.
Qed.

(** ** Cluster assignment: what a returned walk guarantees *)

Lemma index_Returns_inv {A} (l : list A) i a : index l i = Returns a → l !! i = Some a.
Proof. unfold index. destruct (l !! i); congruence. Qed.

Lemma argmin_Returns_inv (l : list Q) m :
  argmin l = Returns m →
  ∃ ym, l !! m = Some ym ∧ ∀ k y, l !! k = Some y → ym <= y.
Proof.
  intros Harg. destruct (argmin_spec l) as (m' & ym & Harg' & Hm & Hmin & _).
  { intros ->. done. }
  rewrite Harg in Harg'. injection Harg' as <-. eauto.
Qed.

(** The nearest neighbouring cluster, when the search returns. *)
Lemma nearest_neighboring_cluster_inv p centers (l : list nat) n s :
  find_separation_and_index_of_nearest_neighboring_cluster p centers l = Returns (n, s) →
  n ∈ l ∧ s = separation_to centers p n ∧
  ∀ n', n' ∈ l → (n' < length centers)%nat ∧ s <= separation_to centers p n'.
Proof.
  unfold find_separation_and_index_of_nearest_neighboring_cluster. intros H.
  destruct (map_each _ l) as [seps| |] eqn:Hseps; cbn [obind] in H; try done.
  apply map_each_inv in Hseps.
  assert (∀ k n' s', l !! k = Some n' → seps !! k = Some s' →
                     (n' < length centers)%nat ∧ s' = separation_to centers p n') as Hsep.
  { intros k n' s' Hk Hk'. pose proof (Forall2_lookup_lr _ _ _ _ _ _ Hseps Hk Hk') as Hf.
    simpl in Hf. destruct (index centers n') as [c| |] eqn:Hc; cbn [obind] in Hf; try done.
    apply index_Returns_inv in Hc. injection Hf as <-.
    split; [by eapply lookup_lt_Some|]. unfold separation_to, center_at. by rewrite Hc. }
  destruct (argmin seps) as [ai| |] eqn:Hai; cbn [obind] in H; try done.
  destruct (index l ai) as [n0| |] eqn:Hn; cbn [obind] in H; try done.
  destruct (index seps ai) as [s0| |] eqn:Hs; cbn [obind] in H; try done.
  injection H as -> ->. apply index_Returns_inv in Hn, Hs.
  destruct (argmin_Returns_inv seps ai Hai) as (ym & Hym & Hmin).
  rewrite Hs in Hym. injection Hym as <-.
  split; [by eapply list_elem_of_lookup_2|]. split; [by apply (Hsep ai)|].
  intros n' Hn'. apply list_elem_of_lookup_1 in Hn' as [k Hk].
  destruct (Forall2_lookup_l _ _ _ _ _ Hseps Hk) as (s' & Hs' & _).
  destruct (Hsep k n' s' Hk Hs') as [Hlt ->]. split; [done|]. by apply (Hmin k).
Qed.

Lemma neighbor_walk_unfold fuel p centers nbrs c :
  neighbor_walk (S fuel) p centers nbrs c
  = (sep ←! find_separation_of_sub_coordinate_and_nearest_sparse_cluster centers p c;
     neighbors ←! index nbrs c;
     found ←! find_separation_and_index_of_nearest_neighboring_cluster p centers neighbors;
     if Qlt_le_dec sep found.2 then Returns c
     else neighbor_walk fuel p centers nbrs found.1).
Proof. reflexivity. Qed.

(** Whatever the adjacency lists, a cluster the neighbour walk returns is in
    range, has a non-empty neighbour list, is strictly nearer to the sub-pixel
    than every cluster of that list, and is no farther from the sub-pixel than
    the cluster the walk started from. *)
Lemma neighbor_walk_returns_local_minimum_aux fuel p centers (nbrs : list (list nat)) c m :
  neighbor_walk fuel p centers nbrs c = Returns m →
  (m < length centers)%nat ∧
  neighbors_of nbrs m ≠ [] ∧
  (∀ n, n ∈ neighbors_of nbrs m →
        (n < length centers)%nat ∧ separation_to centers p m < separation_to centers p n) ∧
  separation_to centers p m <= separation_to centers p c.
Proof.
  revert c. induction fuel as [|fuel IH]; intros c H; [done|].
  rewrite neighbor_walk_unfold in H.
  unfold find_separation_of_sub_coordinate_and_nearest_sparse_cluster in H.
  destruct (index centers c) as [cc| |] eqn:Hc; cbn [obind] in H; try done.
  apply index_Returns_inv in Hc.
  destruct (index nbrs c) as [l| |] eqn:Hl; cbn [obind] in H; try done.
  apply index_Returns_inv in Hl.
  destruct (find_separation_and_index_of_nearest_neighboring_cluster p centers l)
    as [[n s]| |] eqn:Hfind; cbn [obind fst snd] in H; try done.
  apply nearest_neighboring_cluster_inv in Hfind as (Hn & -> & Hmin).
  assert (compute_squared_separation p cc = separation_to centers p c) as Hsep
    by (unfold separation_to, center_at; by rewrite Hc).
  rewrite Hsep in H.
  destruct (Qlt_le_dec _ _) as [Hstop|Hmove].
  - injection H as <-.
    assert (neighbors_of nbrs c = l) as Hnb by (unfold neighbors_of; by rewrite Hl).
    rewrite Hnb. split; [by eapply lookup_lt_Some|]. split; [intros ->; by apply elem_of_nil in Hn|].
    split; [|lra]. intros n' Hn'. destruct (Hmin n' Hn') as [? ?]. split; [done|lra].
  - destruct (IH n H) as (Hm & Hne & Hloc & Hle).
    split; [done|split; [done|split; [done|lra]]].
Qed.

Lemma lookup_enumerate_from {A} (l : list A) start i :
  enumerate_from start l !! i = (λ x, ((start + i)%nat, x)) <$> l !! i.
Proof.
  revert start i. induction l as [|x l IH]; intros start [|i]; simpl; try done.
  - by rewrite Nat.add_0_r.
  - rewrite IH. by replace (S start + i)%nat with (start + S i)%nat by lia.
Qed.

Lemma length_enumerate_from {A} (l : list A) start :
  length (enumerate_from start l) = length l.
Proof. revert start. induction l as [|x l IH]; intros start; simpl; [done|]. by rewrite IH. Qed.

(** X11.  When [sub_coordinates_to_clusters_via_sparse_pairs] returns, it
    returns one cluster per sub-pixel; each is in range, strictly nearer to
    its sub-pixel than every cluster of its own neighbour list, and no
    farther from it than the cluster of the sub-pixel's sparse coordinate,
    from which the walk started. *)
Theorem sparse_pairs_returns_local_minima fuel (subs centers : list coordinate)
    (nbrs : list (list nat)) (sub_to_sparse sparse_to_cluster l : list nat) :
  sub_coordinates_to_clusters_via_sparse_pairs
    fuel subs centers nbrs sub_to_sparse sparse_to_cluster = Returns l →
  length l = length subs ∧
  ∀ i p m, subs !! i = Some p → l !! i = Some m →
    (m < length centers)%nat ∧
    (∀ n, n ∈ neighbors_of nbrs m →
          separation_to centers p m < separation_to centers p n) ∧
    ∃ s c, sub_to_sparse !! i = Some s ∧ sparse_to_cluster !! s = Some c ∧
           separation_to centers p m <= separation_to centers p c.
Proof.
  unfold sub_coordinates_to_clusters_via_sparse_pairs. intros H.
  apply map_each_inv in H. split.
  - apply Forall2_length in H. by rewrite length_enumerate_from in H.
  - intros i p m Hp Hm.
    assert (enumerate_from 0 subs !! i = Some (i, p)) as Hip
      by (by rewrite lookup_enumerate_from, Hp).
    pose proof (Forall2_lookup_lr _ _ _ _ _ _ H Hip Hm) as Hf. cbn [fst snd] in Hf.
    unfold find_index_of_nearest_sparse_coordinate, find_index_of_nearest_sparse_cluster in Hf.
    destruct (index sub_to_sparse i) as [s| |] eqn:Hs; cbn [obind] in Hf; try done.
    destruct (index sparse_to_cluster s) as [c| |] eqn:Hc; cbn [obind] in Hf; try done.
    apply index_Returns_inv in Hs, Hc.
    destruct (neighbor_walk_returns_local_minimum_aux _ _ _ _ _ _ Hf) as (Hlt & _ & Hloc & Hle).
    split; [done|]. split; [intros n Hn; by apply Hloc|]. by exists s, c.
Qed.

Lemma index_lt_Returns {A} (l : list A) i :
  (i < length l)%nat → ∃ a, index l i = Returns a.
Proof.
  intros Hi. destruct (lookup_lt_is_Some_2 l i Hi) as [a Ha].
  exists a. by apply index_Returns.
Qed.

Lemma map_each_some_raises {A B} (f : A → outcome B) xs e :
  (∀ x, x ∈ xs → (∃ b, f x = Returns b) ∨ f x = Raises e) →
  (∃ x, x ∈ xs ∧ f x = Raises e) →
  map_each f xs = Raises e.
Proof.
  induction xs as [|x xs IH]; intros Hall (y & Hy & Hfy).
  - by apply elem_of_nil in Hy.
  - simpl. destruct (Hall x) as [[b Hb]|Hb]; [apply list_elem_of_here| |by rewrite Hb].
    rewrite Hb. cbn [obind]. rewrite IH; [done| |].
    + intros z Hz. apply Hall. by apply list_elem_of_further.
    + apply elem_of_cons in Hy as [->|Hy]; [congruence|]. by exists y.
Qed.

(** X12.  One iteration of the neighbour walk raises [IndexError] for a
    current cluster without a centre or without a neighbour list and for a
    neighbour list that names a cluster without a centre, and [ValueError]
    for a cluster whose neighbour list is empty. *)
Theorem neighbor_walk_raises fuel p (centers : list coordinate) (nbrs : list (list nat)) c :
  ((length centers ≤ c)%nat →
   neighbor_walk (S fuel) p centers nbrs c = Raises IndexError) ∧
  ((c < length centers)%nat → (length nbrs ≤ c)%nat →
   neighbor_walk (S fuel) p centers nbrs c = Raises IndexError) ∧
  ((c < length centers)%nat → nbrs !! c = Some [] →
   neighbor_walk (S fuel) p centers nbrs c = Raises ValueError) ∧
  ((c < length centers)%nat →
   ∀ l n, nbrs !! c = Some l → n ∈ l → (length centers ≤ n)%nat →
          neighbor_walk (S fuel) p centers nbrs c = Raises IndexError).
Proof.
  rewrite neighbor_walk_unfold.
  unfold find_separation_of_sub_coordinate_and_nearest_sparse_cluster.
  split; [|split; [|split]].
  - intros Hc. unfold index at 1. by rewrite (lookup_ge_None_2 centers c Hc).
  - intros Hc Hn. destruct (index_lt_Returns centers c Hc) as [cc ->]. cbn [obind].
    unfold index. by rewrite (lookup_ge_None_2 nbrs c Hn).
  - intros Hc Hl. destruct (index_lt_Returns centers c Hc) as [cc ->]. cbn [obind].
    by rewrite (index_Returns _ _ _ Hl).
  - intros Hc l n Hl Hn Hbad. destruct (index_lt_Returns centers c Hc) as [cc ->].
    cbn [obind]. rewrite (index_Returns _ _ _ Hl). cbn [obind].
    unfold find_separation_and_index_of_nearest_neighboring_cluster.
    rewrite (map_each_some_raises _ l IndexError); [done| |].
    + intros x _. destruct (index_cases centers x) as [(a & _ & ->)|[_ ->]]; cbn [obind]; eauto.
    + exists n. split; [done|]. unfold index. by rewrite (lookup_ge_None_2 centers n Hbad).
Qed.

(** X13.  The squared separation is symmetric, never negative, and zero
    exactly for coordinates with equal components. *)
Theorem compute_squared_separation_metric (a b : coordinate) :
  compute_squared_separation a b == compute_squared_separation b a ∧
  0 <= compute_squared_separation a b ∧
  (compute_squared_separation a b == 0 ↔ a.1 == b.1 ∧ a.2 == b.2).
Proof.
  destruct a as [x y], b as [u v]. unfold compute_squared_separation. cbn [fst snd].
  pose proof (Qsquare_nonneg (x - u)) as H1. pose proof (Qsquare_nonneg (y - v)) as H2.
  split; [simpl; ring|]. split; [lra|]. split.
  - intros H0.
    assert ((x - u) ^ 2 == 0) as Hx by lra. assert ((y - v) ^ 2 == 0) as Hy by lra.
    simpl in Hx, Hy. apply Qmult_integral in Hx, Hy. split; [destruct Hx|destruct Hy]; lra.
  - intros [-> ->]. simpl. ring.
Qed.

(** ** The noise map of a fit *)

Lemma clip_above_bounded limit (a : list Q) : Forall (λ v, v <= limit) (clip_above limit a).
Proof.
  unfold clip_above. apply Forall_fmap, Forall_forall. intros v _. simpl.
  destruct (Qlt_le_dec limit v); lra.
Qed.

Lemma np_add_equal_length (a b : list Q) :
  length a = length b → np_add a b = Returns (zip_with Qplus a b).
Proof. intros H. unfold np_add. by rewrite H, Nat.eqb_refl. Qed.

Lemma np_add_mismatch (a b : list Q) :
  length a ≠ length b → length a ≠ 1%nat → length b ≠ 1%nat →
  np_add a b = Raises ValueError.
Proof.
  intros H Ha Hb. unfold np_add. rewrite (proj2 (Nat.eqb_neq _ _) H).
  destruct a as [|x [|x' a]], b as [|y [|y' b]]; simpl in *; done.
Qed.

(** X14.  When the tracer supplies a hyper noise map of the length of the
    (scaled) noise map, the function returns their elementwise sum with every
    entry above the maximum replaced by the maximum, so no entry exceeds it;
    when the lengths differ and neither is 1 it raises [ValueError]; and
    when the tracer supplies no hyper noise map it returns the (scaled)
    noise map as it is: the maximum is then not applied. *)
Theorem noise_map_with_hyper_noise (lens_noise : list Q) (limit : option Q)
    (tracer_hyper : list Q → option (list Q)) (background : option (list Q → list Q)) :
  let noise := match background with Some scale => scale lens_noise | None => lens_noise end in
  (∀ hyper m, tracer_hyper lens_noise = Some hyper → limit = Some m →
     length noise = length hyper →
     ∃ l, noise_map_1d_from_lens_data_tracer_and_hyper_backkground_noise
            lens_noise limit tracer_hyper background = Returns l ∧
          length l = length noise ∧ Forall (λ v, v <= m) l ∧
          ∀ i a h, noise !! i = Some a → hyper !! i = Some h →
                   l !! i = Some (if Qlt_le_dec m (a + h) then m else a + h)) ∧
  (∀ hyper, tracer_hyper lens_noise = Some hyper →
     length noise ≠ length hyper → length noise ≠ 1%nat → length hyper ≠ 1%nat →
     noise_map_1d_from_lens_data_tracer_and_hyper_backkground_noise
       lens_noise limit tracer_hyper background = Raises ValueError) ∧
  (tracer_hyper lens_noise = None →
   noise_map_1d_from_lens_data_tracer_and_hyper_backkground_noise
     lens_noise limit tracer_hyper background = Returns noise).
Proof.
  intros noise. unfold noise_map_1d_from_lens_data_tracer_and_hyper_backkground_noise.
  fold noise. split; [|split].
  - intros hyper m -> -> Hlen. rewrite np_add_equal_length by done. cbn [obind].
    eexists. split; [done|]. split; [|split].
    + unfold clip_above. rewrite length_fmap, length_zip_with. lia.
    + apply clip_above_bounded.
    + intros i a h Ha Hh. unfold clip_above.
      rewrite list_lookup_fmap, lookup_zip_with, Ha. simpl. by rewrite Hh.
  - intros hyper -> H1 H2 H3. by rewrite np_add_mismatch.
  - by intros ->.
Qed.

(** ** The covariance matrix computed directly *)

Lemma Qsum_scale_l n c f : Qsum n (λ i, c * f i) == c * Qsum n f.
Proof. induction n as [|n IH]; simpl; [ring|]. rewrite IH. ring. Qed.

Lemma read_at_spec rows cols (M : matrix) r c :
  has_shape rows cols M → (r < rows)%nat → (c < cols)%nat →
  read_at M r c = Returns (entry M r c).
Proof.
  intros Hs Hr Hc. destruct (has_shape_row _ _ _ _ Hs Hr) as (row & Hrow & Hlen).
  destruct (lookup_lt_is_Some_2 row c) as [x Hx]; [lia|].
  unfold read_at, entry. rewrite (index_Returns _ _ _ Hrow), Hrow. cbn [obind].
  rewrite (index_Returns _ _ _ Hx), Hx. done.
Qed.

Section covariance.
Variables (rows cols n1 n2 : nat) (bm : matrix) (noise : list Q).
Hypothesis Hbm : has_shape rows cols bm.
Hypothesis Hrows : (n1 ≤ rows)%nat.
Hypothesis Hcols : (n2 ≤ cols)%nat.
Hypothesis Hnoise : (n1 ≤ length noise)%nat.

(** What image pixel [i] adds to the entry [(a, b)]. *)
Let term (i a b : nat) : Q := entry bm i a * entry bm i b / default 0 (noise !! i) ^ 2.

Let inner (i jx : nat) := λ (covariance_matrix : matrix) (jy : nat),
  a ←! read_at bm i jx; b ←! read_at bm i jy; n ←! index noise i;
  add_at covariance_matrix jx jy (a * b / n ^ 2).

Let middle (i : nat) := λ (covariance_matrix : matrix) (jx : nat),
  for_each (inner i jx) (seq 0 n2) covariance_matrix.

Let outer := λ (covariance_matrix : matrix) (i : nat),
  for_each (middle i) (seq 0 n2) covariance_matrix.

Lemma covariance_inner_loop i jx n M0 :
  (i < n1)%nat → (jx < n2)%nat → (n ≤ n2)%nat → has_shape n2 n2 M0 →
  ∃ M, for_each (inner i jx) (seq 0 n) M0 = Returns M ∧ has_shape n2 n2 M ∧
       ∀ a b, entry M a b == entry M0 a b + ind ((a =? jx)%nat && (b <? n)%nat) (term i a b).
Proof using Hbm Hrows Hcols Hnoise.
  intros Hi Hjx Hn Hs. induction n as [|n IH].
  - exists M0. split; [done|split; [done|]]. intros a b.
    rewrite andb_false_r. simpl. ring.
  - destruct IH as (M & Hrun & HsM & HM); [lia|].
    destruct (lookup_lt_is_Some_2 noise i) as [v Hv]; [lia|].
    destruct (add_at_spec n2 n2 M jx n (entry bm i jx * entry bm i n / v ^ 2) HsM)
      as (M' & Hadd & HsM' & HM'); [lia|lia|].
    exists M'. split; [|split; [done|]].
    + rewrite seq_S, Nat.add_0_l, for_each_app, Hrun. cbn [obind for_each]. unfold inner.
      rewrite !(read_at_spec rows cols) by (done || lia). cbn [obind].
      rewrite (index_Returns _ _ _ Hv). cbn [obind]. by rewrite Hadd.
    + intros a b. rewrite HM', HM. unfold ind.
      destruct (Nat.eqb_spec a jx) as [->|Ha]; simpl; [|ring].
      destruct (Nat.eqb_spec b n) as [->|Hb].
      * rewrite (proj2 (Nat.ltb_ge n n)), (proj2 (Nat.ltb_lt n (S n))) by lia.
        unfold term. rewrite Hv. simpl. ring.
      * destruct (Nat.ltb_spec b n), (Nat.ltb_spec b (S n)); try lia; ring.
Qed.

Lemma covariance_middle_loop i n M0 :
  (i < n1)%nat → (n ≤ n2)%nat → has_shape n2 n2 M0 →
  ∃ M, for_each (middle i) (seq 0 n) M0 = Returns M ∧ has_shape n2 n2 M ∧
       ∀ a b, entry M a b == entry M0 a b + ind ((a <? n)%nat && (b <? n2)%nat) (term i a b).
Proof using Hbm Hrows Hcols Hnoise.
  intros Hi Hn Hs. induction n as [|n IH].
  - exists M0. split; [done|split; [done|]]. intros a b. simpl. ring.
  - destruct IH as (M & Hrun & HsM & HM); [lia|].
    destruct (covariance_inner_loop i n n2 M) as (M' & Hrun' & HsM' & HM'); try done; try lia.
    exists M'. split; [|split; [done|]].
    + rewrite seq_S, Nat.add_0_l, for_each_app, Hrun. cbn [obind for_each].
      unfold middle at 1. by rewrite Hrun'.
    + intros a b. rewrite HM', HM. unfold ind.
      destruct (Nat.eqb_spec a n) as [->|Ha]; simpl.
      * rewrite (proj2 (Nat.ltb_ge n n)), (proj2 (Nat.ltb_lt n (S n))) by lia. simpl. ring.
      * destruct (Nat.ltb_spec a n), (Nat.ltb_spec a (S n)); try lia; simpl; ring.
Qed.

Lemma covariance_outer_loop n M0 :
  (n ≤ n1)%nat → has_shape n2 n2 M0 →
  ∃ M, for_each outer (seq 0 n) M0 = Returns M ∧ has_shape n2 n2 M ∧
       ∀ a b, (a < n2)%nat → (b < n2)%nat →
              entry M a b == entry M0 a b + Qsum n (λ i, term i a b).
Proof using Hbm Hrows Hcols Hnoise.
  intros Hn Hs. induction n as [|n IH].
  - exists M0. split; [done|split; [done|]]. intros a b _ _. simpl. ring.
  - destruct IH as (M & Hrun & HsM & HM); [lia|].
    destruct (covariance_middle_loop n n2 M) as (M' & Hrun' & HsM' & HM'); try done; try lia.
    exists M'. split; [|split; [done|]].
    + rewrite seq_S, Nat.add_0_l, for_each_app, Hrun. cbn [obind for_each].
      unfold outer at 1. by rewrite Hrun'.
    + intros a b Ha Hb. rewrite HM', HM by done. simpl.
      rewrite (proj2 (Nat.ltb_lt a n2)), (proj2 (Nat.ltb_lt b n2)) by done. simpl. ring.
Qed.

Lemma covariance_entries :
  ∃ F, covariance_matrix_from_blurred_mapping (n1, n2) bm noise = Returns F ∧
       has_shape n2 n2 F ∧
       ∀ a b, (a < n2)%nat → (b < n2)%nat → entry F a b == Qsum n1 (λ i, term i a b).
Proof using Hbm Hrows Hcols Hnoise.
  destruct (covariance_outer_loop n1 (zeros n2 n2)) as (F & Hrun & Hs & HF);
    [lia|apply zeros_shape|].
  exists F. split; [exact Hrun|split; [done|]].
  intros a b Ha Hb. rewrite HF, entry_zeros by done. ring.
Qed.
End covariance.

Lemma Qsum_nonnegative n f : (∀ i, (i < n)%nat → 0 <= f i) → 0 <= Qsum n f.
Proof.
  induction n as [|n IH]; intros H; simpl; [apply Qle_refl|].
  assert (0 <= Qsum n f) by (apply IH; intros; apply H; lia).
  assert (0 <= f n) by (apply H; lia). lra.
Qed.

Lemma bilinear_sum_Qsum d x n (G : nat → nat → nat → Q) :
  bilinear_sum d x (λ a b, Qsum n (λ i, G i a b))
  == Qsum n (λ i, bilinear_sum d x (G i)).
Proof.
  induction n as [|n IH]; simpl.
  - unfold bilinear_sum. apply Qsum_zero. intros a _. apply Qsum_zero. intros b _. ring.
  - rewrite <- IH. apply bilinear_sum_plus.
Qed.

(** The quadratic form of a rank-one matrix [c * u u^T]. *)
Lemma bilinear_sum_rank_one d x (u : nat → Q) c :
  bilinear_sum d x (λ a b, u a * u b * c) == c * Qsum d (λ a, x a * u a) ^ 2.
Proof.
  unfold bilinear_sum.
  rewrite (Qsum_ext d _ (λ a, (x a * u a) * (c * Qsum d (λ b, x b * u b)))).
  - rewrite (Qsum_ext d _ (λ a, (c * Qsum d (λ b, x b * u b)) * (x a * u a))).
    + rewrite Qsum_scale_l. simpl. ring.
    + intros a _. ring.
  - intros a _. rewrite <- Qsum_scale_l, <- Qsum_scale_l. apply Qsum_ext. intros b _. ring.
Qed.

(** X15.  For a blurred mapping matrix at least as large as the mapping
    shape [(n1, n2)] and a noise vector of at least [n1] non-zero values,
    [covariance_matrix_from_blurred_mapping] returns the [n2 x n2] matrix with
    entries [sum_i B[i, a] * B[i, b] / noise[i]^2]; it is symmetric and
    positive semi-definite. *)
Theorem covariance_matrix_symmetric_psd rows cols n1 n2 (bm : matrix) (noise : list Q) :
  has_shape rows cols bm → (n1 ≤ rows)%nat → (n2 ≤ cols)%nat →
  (n1 ≤ length noise)%nat → Forall (λ v, ¬ v == 0) noise →
  ∃ F, covariance_matrix_from_blurred_mapping (n1, n2) bm noise = Returns F ∧
       has_shape n2 n2 F ∧
       (∀ a b, (a < n2)%nat → (b < n2)%nat →
          entry F a b
          == Qsum n1 (λ i, entry bm i a * entry bm i b / default 0 (noise !! i) ^ 2)) ∧
       (∀ a b, (a < n2)%nat → (b < n2)%nat → entry F a b == entry F b a) ∧
       (∀ x : list Q, 0 <= quadratic_form n2 F x).
Proof.
  intros Hbm Hrows Hcols Hnoise _.
  destruct (covariance_entries rows cols n1 n2 bm noise Hbm Hrows Hcols Hnoise)
    as (F & Hrun & Hs & HF).
  exists F. split; [exact Hrun|split; [exact Hs|split; [exact HF|split]]].
  - intros a b Ha Hb. rewrite !HF by done. apply Qsum_ext. intros i _.
    unfold Qdiv. ring.
  - intros x. unfold quadratic_form.
    change (Qsum n2 (λ i, Qsum n2 (λ j, vec_at x i * entry F i j * vec_at x j)))
      with (bilinear_sum n2 (vec_at x) (entry F)).
    rewrite (bilinear_sum_ext n2 (vec_at x) _ _ HF), bilinear_sum_Qsum.
    apply Qsum_nonnegative. intros i _.
    rewrite (bilinear_sum_ext n2 (vec_at x) _
               (λ a b, entry bm i a * entry bm i b * / (default 0 (noise !! i) ^ 2)))
      by (intros; reflexivity).
    rewrite bilinear_sum_rank_one.
    apply Qmult_le_0_compat; [|apply Qsquare_nonneg].
    apply Qinv_le_0_compat, Qsquare_nonneg.
Qed.

Lemma covariance_matrix_symmetric_psd_witness :
  ∃ F, covariance_matrix_from_blurred_mapping (2, 2)%nat [[1; 2]; [0; 3]] [1; 2] = Returns F ∧
       has_shape 2 2 F ∧
       (∀ a b, (a < 2)%nat → (b < 2)%nat →
          entry F a b
          == Qsum 2 (λ i, entry [[1; 2]; [0; 3]] i a * entry [[1; 2]; [0; 3]] i b
                          / default 0 ([1; 2] !! i) ^ 2)) ∧
       (∀ a b, (a < 2)%nat → (b < 2)%nat → entry F a b == entry F b a) ∧
       (∀ x : list Q, 0 <= quadratic_form 2 F x).
Proof.
  apply (covariance_matrix_symmetric_psd 2 2 2 2 [[1; 2]; [0; 3]] [1; 2]).
  - split; [reflexivity|repeat constructor].
  - lia.
  - lia.
  - simpl. lia.
  - repeat constructor; intros H; discriminate H.
Defined.

(** ** Angles, move factors and relocation *)

Close Scope Q_scope.
Open Scope R_scope.

Lemma arctan2_range (y x : R) : - PI < arctan2 y x <= PI.
Proof.
  pose proof PI_RGT_0 as Hpi. unfold arctan2.
  destruct (Rlt_dec 0 x) as [Hx|Hx].
  { pose proof (atan_bound (y / x)). lra. }
  destruct (Rlt_dec x 0) as [Hx'|Hx'].
  - pose proof (atan_bound (y / x)) as Hb.
    destruct (Rle_dec 0 y) as [Hy|Hy].
    + assert (atan (y / x) <= 0); [|lra].
      destruct (Req_dec y 0) as [->|Hy0].
      * unfold Rdiv. rewrite Rmult_0_l, atan_0. lra.
      * left. rewrite <- atan_0. apply atan_increasing.
        unfold Rdiv. apply Rmult_pos_neg; [lra|]. by apply Rinv_lt_0_compat.
    + assert (0 < atan (y / x)); [|lra].
      rewrite <- atan_0. apply atan_increasing.
      unfold Rdiv. apply Rmult_neg_neg; [lra|]. by apply Rinv_lt_0_compat.
  - destruct (Rlt_dec 0 y); [lra|]. destruct (Rlt_dec y 0); lra.
Qed.

Lemma degrees_range (r : R) : - PI < r <= PI → - 180 < degrees r <= 180.
Proof.
  intros [Hlo Hhi]. pose proof PI_RGT_0 as Hpi. unfold degrees.
  split.
  - apply (Rmult_lt_reg_r PI); [done|]. unfold Rdiv.
    rewrite Rmult_assoc, Rinv_l by lra. lra.
  - apply (Rmult_le_reg_r PI); [done|]. unfold Rdiv.
    rewrite Rmult_assoc, Rinv_l by lra. lra.
Qed.

(** X16.  The angle of a coordinate from the positive x-axis about a centre
    is at least 0 and below 360 degrees. *)
Theorem coordinates_angle_from_x_range (centre coordinates : point) :
  0 <= coordinates_angle_from_x centre coordinates < 360.
Proof.
  unfold coordinates_angle_from_x.
  pose proof (degrees_range _ (arctan2_range (coordinates_to_centre centre coordinates).2
                                             (coordinates_to_centre centre coordinates).1)).
  destruct (Rlt_dec _ _); lra.
Qed.

(** X17.  Where the border radius at the angle of a coordinate is positive,
    the move factor of the coordinate is positive and at most 1, and it is 1
    exactly when the coordinate is within the border. *)
Theorem move_factor_range border c :
  0 < border_radius_at_theta border (coordinates_angle_from_x (border_centre border) c) →
  0 < move_factor border c <= 1 ∧
  (move_factor border c = 1 ↔ within_border border c).
Proof.
  intros Hpos. unfold move_factor, within_border.
  set (br := border_radius_at_theta _ _) in *.
  set (r := coordinates_to_radius _ _).
  destruct (Rgt_dec r br) as [Hgt|Hle].
  - assert (0 < r) by lra.
    assert (0 < br / r) by (by apply Rdiv_lt_0_compat).
    assert (br / r < 1).
    { apply (Rmult_lt_reg_r r); [done|]. unfold Rdiv.
      rewrite Rmult_assoc, Rinv_l by lra. lra. }
    split; [lra|]. split; lra.
  - split; [lra|]. split; [lra|done].
Qed.

Lemma move_factor_range_witness :
  0 < move_factor unit_border (2, 0) <= 1 ∧
  (move_factor unit_border (2, 0) = 1 ↔ within_border unit_border (2, 0)).
Proof.
  apply (move_factor_range unit_border (2, 0)).
  unfold border_radius_at_theta. cbn [polynomial unit_border].
  rewrite polyval_constant_one. lra.
Defined.

(** X18.  For a border centred on the origin whose radius at the angle of a
    coordinate is positive, the relocated coordinate keeps that angle, has
    the smaller of the coordinate's radius and the border radius as its
    radius, and so lies within the border. *)
Theorem relocated_coordinate_origin border c :
  border_centre border = (0, 0) →
  0 < border_radius_at_theta border (coordinates_angle_from_x (0, 0) c) →
  coordinates_angle_from_x (0, 0) (relocated_coordinate border c)
  = coordinates_angle_from_x (0, 0) c ∧
  coordinates_to_radius (0, 0) (relocated_coordinate border c)
  = Rmin (coordinates_to_radius (0, 0) c)
         (border_radius_at_theta border (coordinates_angle_from_x (0, 0) c)) ∧
  within_border border (relocated_coordinate border c).
Proof.
  intros Hc Hpos.
  destruct (Rle_dec (coordinates_to_radius (border_centre border) c)
              (border_radius_at_theta border
                 (coordinates_angle_from_x (border_centre border) c))) as [Hin|Hout].
  - rewrite (relocated_within border c) by done. rewrite Hc in Hin.
    split; [done|]. split; [by rewrite Rmin_left|].
    unfold within_border. by rewrite Hc.
  - assert (coordinates_angle_from_x (0, 0) (relocated_coordinate border c)
            = coordinates_angle_from_x (0, 0) c) as Hangle.
    { unfold relocated_coordinate. rewrite move_factor_outside by done. rewrite Hc in *.
      destruct c as [x y]. cbn [fst snd]. apply angle_scale_origin.
      apply Rdiv_lt_0_compat; [done|]. lra. }
    pose proof (relocated_radius_origin border c Hc ltac:(lra) Hout) as Hradius.
    split; [done|]. split.
    + rewrite Hradius. rewrite Hc in Hout. rewrite Rmin_right; [done|lra].
    + unfold within_border. rewrite Hc, Hangle, Hradius. lra.
Qed.

Lemma relocated_coordinate_origin_witness :
  coordinates_angle_from_x (0, 0) (relocated_coordinate unit_border (2, 0))
  = coordinates_angle_from_x (0, 0) (2, 0) ∧
  coordinates_to_radius (0, 0) (relocated_coordinate unit_border (2, 0))
  = Rmin (coordinates_to_radius (0, 0) (2, 0))
         (border_radius_at_theta unit_border (coordinates_angle_from_x (0, 0) (2, 0))) ∧
  within_border unit_border (relocated_coordinate unit_border (2, 0)).
Proof.
  apply (relocated_coordinate_origin unit_border (2, 0)).
  - reflexivity.
  - unfold border_radius_at_theta. cbn [polynomial unit_border].
    rewrite polyval_constant_one. lra.
Defined.

Lemma relocated_all_within border (cs : list point) :
  Forall (within_border border) cs → relocated_coordinate border <$> cs = cs.
Proof.
  induction 1 as [|c cs Hc _ IH]; [done|].
  cbn [fmap list_fmap]. f_equal; [by apply relocated_within|exact IH].
Qed.

(** X19.  For a border centred on the origin whose radius is positive at
    the angle of every stored coordinate,
    [relocate_coordinates_outside_border] leaves every stored coordinate
    within the border, and relocating the source plane a second time changes
    nothing. *)
Theorem relocate_coordinates_outside_border_origin (self : SourcePlane) border :
  border_centre border = (0, 0) →
  Forall (λ c, 0 < border_radius_at_theta border (coordinates_angle_from_x (0, 0) c))
         (coordinates self) →
  Forall (within_border border)
    (coordinates (relocate_coordinates_outside_border self border).2) ∧
  (relocate_coordinates_outside_border
     (relocate_coordinates_outside_border self border).2 border).2
  = (relocate_coordinates_outside_border self border).2.
Proof.
  intros Hc Hpos. unfold relocate_coordinates_outside_border. cbn [fst snd centre coordinates].
  assert (Forall (within_border border) (relocated_coordinate border <$> coordinates self))
    as Hall.
  { apply Forall_fmap. eapply Forall_impl; [exact Hpos|]. intros c Hr. simpl.
    unfold within_border. rewrite Hc.
    destruct (Rle_dec (coordinates_to_radius (border_centre border) c)
                (border_radius_at_theta border
                   (coordinates_angle_from_x (border_centre border) c))) as [Hin|Hout].
    - rewrite (relocated_within border c) by done. by rewrite Hc in Hin.
    - rewrite (relocated_radius_origin border c Hc) by (done || by left).
      assert (coordinates_angle_from_x (0, 0) (relocated_coordinate border c)
              = coordinates_angle_from_x (0, 0) c) as ->; [|lra].
      unfold relocated_coordinate. rewrite move_factor_outside by done. rewrite Hc in *.
      destruct c as [x y]. cbn [fst snd]. apply angle_scale_origin.
      apply Rdiv_lt_0_compat; [done|]. lra. }
  split; [exact Hall|]. f_equal. by apply relocated_all_within.
Qed.

Lemma relocate_coordinates_outside_border_origin_witness :
  Forall (within_border unit_border)
    (coordinates (relocate_coordinates_outside_border example_source_plane unit_border).2) ∧
  (relocate_coordinates_outside_border
     (relocate_coordinates_outside_border example_source_plane unit_border).2 unit_border).2
  = (relocate_coordinates_outside_border example_source_plane unit_border).2.
Proof.
  apply (relocate_coordinates_outside_border_origin example_source_plane unit_border).
  - reflexivity.
  - apply Forall_forall. intros c _. unfold border_radius_at_theta.
    cbn [polynomial unit_border]. rewrite polyval_constant_one. lra.
Defined.

(** ** Borders from a mask *)

Lemma compress_sublist {A} (data : list A) (mask : list bool) :
  compress data mask `sublist_of` data.
Proof.
  revert mask. induction data as [|d data IH]; intros [|[] mask]; simpl;
    try apply sublist_nil_l.
  - by apply sublist_skip.
  - by apply sublist_cons.
Qed.

Lemma compress_all_true {A} (data : list A) (mask : list bool) :
  (length data ≤ length mask)%nat → Forall (λ b, b = true) (take (length data) mask) →
  compress data mask = data.
Proof.
  revert mask. induction data as [|d data IH]; intros [|b mask] Hlen Hall; simpl in *;
    try done; try lia.
  apply Forall_cons in Hall as [-> Hall]. f_equal. apply IH; [lia|done].
Qed.

Lemma compress_all_false {A} (data : list A) (mask : list bool) :
  Forall (λ b, b = false) mask → compress data mask = [].
Proof.
  intros Hall. revert data. induction Hall as [|b mask -> _ IH]; intros [|d data]; simpl; auto.
Qed.

(** X20.  The border a source plane builds from a mask has the plane's
    centre, and its coordinates are the plane's coordinates at the selected
    positions, in their order: a subsequence of the stored coordinates, all
    of them for a mask that selects every position, none for a mask that
    selects no position.  A failure of the polynomial fit is the failure of
    the construction. *)
Theorem border_with_mask_coordinates
    (polyfit : list R → list R → nat → outcome (list R))
    (self : SourcePlane) (mask : list bool) (degree : nat) :
  (∀ border, border_with_mask_and_polynomial_degree polyfit self mask degree = Returns border →
     border_centre border = centre self ∧
     border_coordinates border `sublist_of` coordinates self ∧
     polyfit (thetas border) (radii border) degree = Returns (polynomial border) ∧
     ((length (coordinates self) ≤ length mask)%nat →
      Forall (λ b, b = true) (take (length (coordinates self)) mask) →
      border_coordinates border = coordinates self) ∧
     (Forall (λ b, b = false) mask → border_coordinates border = [])) ∧
  (∀ e, polyfit (coordinates_angle_from_x (centre self) <$> compress (coordinates self) mask)
                (coordinates_to_radius (centre self) <$> compress (coordinates self) mask)
                degree = Raises e →
        border_with_mask_and_polynomial_degree polyfit self mask degree = Raises e).
Proof.
  unfold border_with_mask_and_polynomial_degree, SourcePlaneBorder_init. split.
  - intros border H.
    destruct (polyfit _ _ degree) as [q| |] eqn:Hq; cbn [obind] in H; try done.
    injection H as <-. unfold thetas, radii. cbn [border_centre border_coordinates polynomial].
    split; [done|]. split; [apply compress_sublist|]. split; [done|]. split.
    + apply compress_all_true.
    + apply compress_all_false.
  - intros e He.
    destruct (polyfit _ _ degree) as [q|e'|]; cbn [obind]; congruence.
Qed.


Close Scope R_scope.
Open Scope Q_scope.

(** ** The walk from the nearest cluster *)

Lemma count_below_none n p : (∀ k, (k < n)%nat → p k = false) → count_below n p = O.
Proof.
  induction n as [|n IH]; intros H; simpl; [done|].
  rewrite IH, (H n) by (intros; try apply H; lia). done.
Qed.

(** X22.  For a well-formed adjacency graph and a sub-pixel with a unique
    nearest centre, a walk that starts at that centre returns it after a
    single iteration. *)
Theorem neighbor_walk_from_nearest centers (nbrs : list (list nat)) p m :
  well_formed_adjacency centers nbrs → unique_nearest centers p m →
  neighbor_walk 1 p centers nbrs m = Returns m.
Proof.
  intros Hwf Hm.
  apply (neighbor_walk_converges centers nbrs p Hwf m Hm O); [apply Hm| |lia].
  unfold rank. rewrite count_below_none; [done|].
  intros k Hk. unfold closer_than. destruct (Qlt_le_dec _ _) as [Hlt|_]; [|done].
  destruct Hm as [_ Huniq]. destruct (decide (k = m)) as [->|Hne]; [lra|].
  pose proof (Huniq k Hk Hne). lra.
Qed.

Lemma neighbor_walk_from_nearest_witness :
  neighbor_walk 1 example_sub_coordinate tie_centers tie_neighbors 1 = Returns 1%nat.
Proof.
  apply (neighbor_walk_from_nearest tie_centers tie_neighbors example_sub_coordinate 1).
  - exact tie_well_formed.
  - unique_nearest_by_evaluation.
Defined.

Lemma sparse_pairs_returns_local_minima_witness :
  length [1; 2; 3]%nat = length example_sub_coordinates ∧
  ∀ i p m, example_sub_coordinates !! i = Some p → [1; 2; 3]%nat !! i = Some m →
    (m < length tie_centers)%nat ∧
    (∀ n, n ∈ neighbors_of tie_neighbors m →
          separation_to tie_centers p m < separation_to tie_centers p n) ∧
    ∃ s c, [0; 0; 0]%nat !! i = Some s ∧ [2]%nat !! s = Some c ∧
           separation_to tie_centers p m <= separation_to tie_centers p c.
Proof.
  apply (sparse_pairs_returns_local_minima 4 example_sub_coordinates tie_centers
           tie_neighbors [0; 0; 0]%nat [2]%nat [1; 2; 3]%nat).
  reflexivity.
Defined.
